(** * richtablebuilder: accessor paths, table fields and table assembly

    A shallow embedding of [richtablebuilder.py].  Python values are an
    inductive type, exceptions are an error monad, dictionaries passed as
    keyword options are finite maps, and the calls made on the
    [rich.table.Table] under construction are recorded in the order the
    builder makes them. *)

From Stdlib Require Import ZArith Ascii String List Permutation Sorted.
From stdpp Require Import gmap strings list pretty.

Set Warnings "-register-all".

Open Scope string_scope.
Open Scope list_scope.
Open Scope Z_scope.

(** ** Python values *)

(** The key of one accessor step: [str | int]. *)
Inductive key :=
| KStr (s : string)
| KInt (z : Z).

#[global] Instance key_eq_dec : EqDecision key.
Proof. solve_decision. Defined.

(** The two module-level sentinels, [NO_DEFAULT = object()] and
    [MISSING = object()]; each is one object, told apart by identity. *)
Inductive sentinel := NoDefaultObject | MissingObject.

(** The values that records, defaults and options are made of.  A [str] is
    the list of its code points (below 256); a [dict] is keyed by [str | int]
    and keeps insertion order; [VObj] is an instance of a plain class with its
    attribute dictionary.  Values of built-in types are data only: their
    methods are not part of the model, so attribute lookup finds attributes on
    [VObj] alone. *)
Inductive value :=
| VNone
| VBool (b : bool)
| VInt (z : Z)
| VStr (s : string)
| VList (xs : list value)
| VTuple (xs : list value)
| VDict (items : list (key * value))
| VObj (cls : string) (attrs : list (string * value))
| VSentinel (s : sentinel).

Definition NO_DEFAULT : value := VSentinel NoDefaultObject.
Definition MISSING : value := VSentinel MissingObject.

(** [v is None], [v is NO_DEFAULT], [v is MISSING]. *)
Definition is_None (v : value) : bool :=
  match v with VNone => true | _ => false end.
Definition is_NO_DEFAULT (v : value) : bool :=
  match v with VSentinel NoDefaultObject => true | _ => false end.
Definition is_MISSING (v : value) : bool :=
  match v with VSentinel MissingObject => true | _ => false end.

(** ** Exceptions *)

Inductive exc_class :=
| KeyError | IndexError | TypeError | AttributeError | AssertionError
| ValueError
| OtherError (name : string).

Record exc := Exc { exc_cls : exc_class; exc_msg : string }.

Inductive result (A : Type) :=
| Ok (a : A)
| Raise (e : exc).
Arguments Ok {A} a.
Arguments Raise {A} e.

#[global] Instance result_ret : MRet result := fun _ a => Ok a.
#[global] Instance result_bind : MBind result :=
  fun _ _ f m => match m with Ok a => f a | Raise e => Raise e end.

(** ** The built-ins the module relies on *)

(** [bool(v)]: what [if v:] and [v or w] test.  An object without
    [__bool__] or [__len__] is true. *)
Definition py_truthy (v : value) : bool :=
  match v with
  | VNone => false
  | VBool b => b
  | VInt z => negb (z =? 0)
  | VStr s => negb (bool_decide (s = ""))
  | VList xs | VTuple xs => negb (bool_decide (length xs = 0%nat))
  | VDict items => negb (bool_decide (length items = 0%nat))
  | VObj _ _ | VSentinel _ => true
  end.

(** [a or b] *)
Definition py_or (a b : value) : value := if py_truthy a then a else b.

(** [type(v).__name__], with the module prefix where [repr(type(v))] shows
    one.  For a plain object the name is the one it was made with; it stands
    both where the code writes [type(v)] into a message and where Python
    writes [type(v).__name__], two texts that differ for an instance of a
    user class.  Only the text of a message depends on it, never the class of
    an exception. *)
Definition type_name (v : value) : string :=
  match v with
  | VNone => "NoneType"
  | VBool _ => "bool"
  | VInt _ => "int"
  | VStr _ => "str"
  | VList _ => "list"
  | VTuple _ => "tuple"
  | VDict _ => "dict"
  | VObj cls _ => cls
  | VSentinel _ => "object"
  end.

(** Sequence indexing with Python's negative indices. *)
Definition seq_index {A : Type} (xs : list A) (i : Z) : option A :=
  let n := Z.of_nat (length xs) in
  let j := if i <? 0 then i + n else i in
  if (0 <=? j) && (j <? n) then nth_error xs (Z.to_nat j) else None.

Fixpoint dict_get {A : Type} (items : list (key * A)) (k : key) : option A :=
  match items with
  | [] => None
  | (k', v) :: rest => if decide (k' = k) then Some v else dict_get rest k
  end.

Fixpoint attr_get (attrs : list (string * value)) (name : string) : option value :=
  match attrs with
  | [] => None
  | (n, v) :: rest => if decide (n = name) then Some v else attr_get rest name
  end.

Definition not_subscriptable (v : value) : exc :=
  Exc TypeError ("'" +:+ type_name v +:+ "' object is not subscriptable").

(** [obj[k]] with the exception it raises: [KeyError] from a [dict],
    [IndexError] from a sequence, [TypeError] from a sequence indexed by a
    [str] and from anything that has no [__getitem__]. *)
Definition py_getitem (obj : value) (k : key) : result value :=
  match obj with
  | VDict items =>
      match dict_get items k with
      | Some v => Ok v
      | None =>
          Raise (Exc KeyError
                   (match k with KStr s => s | KInt z => pretty z end))
      end
  | VList xs =>
      match k with
      | KInt i =>
          match seq_index xs i with
          | Some v => Ok v
          | None => Raise (Exc IndexError "list index out of range")
          end
      | KStr _ =>
          Raise (Exc TypeError "list indices must be integers or slices, not str")
      end
  | VTuple xs =>
      match k with
      | KInt i =>
          match seq_index xs i with
          | Some v => Ok v
          | None => Raise (Exc IndexError "tuple index out of range")
          end
      | KStr _ =>
          Raise (Exc TypeError "tuple indices must be integers or slices, not str")
      end
  | VStr s =>
      match k with
      | KInt i =>
          match seq_index (list_ascii_of_string s) i with
          | Some c => Ok (VStr (String c EmptyString))
          | None => Raise (Exc IndexError "string index out of range")
          end
      | KStr _ =>
          Raise (Exc TypeError "string indices must be integers, not 'str'")
      end
  | VNone | VBool _ | VInt _ | VObj _ _ | VSentinel _ =>
      Raise (not_subscriptable obj)
  end.

(** [getattr(obj, name, default)].  Attributes are those of plain objects:
    the ones the built-in values have of their own ([int.real], [str.upper],
    [dict.items]) are left out, so that on such a value the default is
    answered where Python may find an attribute.  The statements on paths take
    the outcome of a step as a hypothesis and are read with this in mind. *)
Definition py_getattr (obj : value) (name : string) (default : value) : value :=
  match obj with
  | VObj _ attrs =>
      match attr_get attrs name with
      | Some v => v
      | None => default
      end
  | _ => default
  end.

(** [repr] of a [str]: single quotes unless the text holds a single quote
    and no double quote; the quote and the backslash are escaped, tab,
    newline and carriage return are written [\t], [\n], [\r], and the
    remaining unprintable code points as [\xhh]. *)
Definition squote : ascii := "039"%char.
Definition dquote : ascii := "034"%char.
Definition backslash : ascii := "092"%char.

Definition hex_digit (n : N) : ascii :=
  match nth_error (list_ascii_of_string "0123456789abcdef") (N.to_nat n) with
  | Some c => c
  | None => "0"%char
  end.

Definition hex_escape (n : N) : string :=
  String backslash
    (String "x"%char (String (hex_digit (n / 16)) (String (hex_digit (n mod 16)) ""))).

Definition repr_char (quote c : ascii) : string :=
  let n := N_of_ascii c in
  if bool_decide (c = quote) || bool_decide (c = backslash)
  then String backslash (String c "")
  else if (n =? 9)%N then String backslash "t"
  else if (n =? 10)%N then String backslash "n"
  else if (n =? 13)%N then String backslash "r"
  else if (n <? 32)%N || (n =? 127)%N then hex_escape n
  else if (n <? 127)%N then String c ""
  else if ((128 <=? n)%N && (n <=? 160)%N) || (n =? 173)%N then hex_escape n
  else String c "".

Definition py_repr_str (s : string) : string :=
  let cs := list_ascii_of_string s in
  let has c := existsb (fun c' => bool_decide (c' = c)) cs in
  let quote := if has squote && negb (has dquote) then dquote else squote in
  String quote
    (fold_right (fun c acc => repr_char quote c +:+ acc) (String quote "") cs).

(** [repr(k)] and [str(k)] of an accessor key. *)
Definition py_repr_key (k : key) : string :=
  match k with
  | KStr s => py_repr_str s
  | KInt z => pretty z
  end.

Definition py_str_key (k : key) : string :=
  match k with
  | KStr s => s
  | KInt z => pretty z
  end.

Definition join (sep : string) (parts : list string) : string :=
  String.concat sep parts.

(** [repr(v)].  The default [repr] of an object shows its address, which
    the model does not have: it is written without it. *)
Fixpoint py_repr (v : value) : string :=
  match v with
  | VNone => "None"
  | VBool b => if b then "True" else "False"
  | VInt z => pretty z
  | VStr s => py_repr_str s
  | VList xs => "[" +:+ join ", " (map py_repr xs) +:+ "]"
  | VTuple xs =>
      match xs with
      | [x] => "(" +:+ py_repr x +:+ ",)"
      | _ => "(" +:+ join ", " (map py_repr xs) +:+ ")"
      end
  | VDict items =>
      "{" +:+ join ", "
                (map (fun kv => py_repr_key (fst kv) +:+ ": " +:+ py_repr (snd kv))
                     items)
          +:+ "}"
  | VObj cls _ => "<" +:+ cls +:+ " object>"
  | VSentinel _ => "<object object>"
  end.

(** [str(v)], the default formatter of a field. *)
Definition py_str (v : value) : string :=
  match v with
  | VStr s => s
  | _ => py_repr v
  end.

(** ** ObjType: accessor paths *)

(** One step of a path, the pair [(t, k)] the source stores: [t] is
    ["key"] for an index lookup and anything else (["attr"]) for an
    attribute lookup. *)
Definition accessor : Type := string * key.

Module ObjType.

Record t := mk {
  __accessors__ : list accessor;
  __transforms__ : list (value -> result value)
}.

(** [ObjType._apply] *)
Definition _apply (self : t) (f : value -> result value) : t :=
  mk (__accessors__ self) (__transforms__ self ++ [f]).

(** [ObjType.__repr__] *)
Definition __repr__ (self : t) : string :=
  join ""
    ("Obj" ::
     map (fun a : accessor =>
            let (t, k) := a in
            if decide (t = "key") then "[" +:+ py_repr_key k +:+ "]"
            else "." +:+ py_str_key k)
         (__accessors__ self)).

(** The first loop of [ObjType.__call__], over the accessors that are left;
    [obj] is the loop's variable of that name. *)
Fixpoint walk (self : t) (default : value) (accs : list accessor)
    (obj : value) : result value :=
  match accs with
  | [] => Ok obj
  | (t, k) :: rest =>
      obj ←
        (if decide (t = "key") then
           match py_getitem obj k with
           | Ok v => Ok v
           | Raise e =>
               match exc_cls e with
               | KeyError | IndexError => Ok MISSING
               | _ => Raise e
               end
           end
         else
           match k with
           | KStr name => Ok (py_getattr obj name MISSING)
           | KInt _ => Raise (Exc AssertionError "")
           end);
      obj ←
        (if is_MISSING obj then
           if is_NO_DEFAULT default then Raise (Exc KeyError (__repr__ self))
           else Ok default
         else Ok obj);
      walk self default rest obj
  end.

(** The second loop of [ObjType.__call__]. *)
Fixpoint apply_transforms (ts : list (value -> result value)) (obj : value)
    : result value :=
  match ts with
  | [] => Ok obj
  | transform :: rest => obj ← transform obj; apply_transforms rest obj
  end.

(** [ObjType.__call__(self, obj, default=NO_DEFAULT)] *)
Definition __call__ (self : t) (obj : value) (default : value)
    : result value :=
  obj ← walk self default (__accessors__ self) obj;
  apply_transforms (__transforms__ self) obj.

(** [ObjType.__getitem__] and [ObjType.__getattr__]: the new path is built
    from the accessors alone. *)
Definition __getitem__ (self : t) (k : key) : t :=
  mk (__accessors__ self ++ [("key", k)]) [].

Definition __getattr__ (self : t) (k : string) : t :=
  mk (__accessors__ self ++ [("attr", KStr k)]) [].

End ObjType.

Definition Obj : ObjType.t := ObjType.mk [] [].

(** Path-building notation for examples: [p.[k]] is [p[k]], [p.@a] is
    [p.a]. *)
#[warning="-postfix-notation-not-level-1"]
Notation "p .[ k ]" := (ObjType.__getitem__ p k)
  (at level 2, left associativity, format "p .[ k ]").
Notation "p .@ a" := (ObjType.__getattr__ p a)
  (at level 2, left associativity, format "p .@ a").

(** ** Renderables and table fields *)

(** What a cell, a header or a footer can be: a value used as it is, a
    [rich.text.Text(plain, style=...)] or a
    [rich.styled.Styled(renderable, style=...)]. *)
Inductive renderable :=
| RValue (v : value)
| Text (plain : string) (style : value)
| Styled (r : renderable) (style : value).

(** [bool(r)]: a [Text] is false when its text is empty, a [Styled] is
    always true. *)
Definition renderable_truthy (r : renderable) : bool :=
  match r with
  | RValue v => py_truthy v
  | Text plain _ => negb (bool_decide (plain = ""))
  | Styled _ _ => true
  end.

(** [r or ""] *)
Definition or_empty (r : renderable) : renderable :=
  if renderable_truthy r then r else RValue (VStr "").

Definition Getter : Type := value -> value -> result value.
Definition Formatter : Type := value -> result renderable.
Definition Reducer : Type := list value -> result value.

(** A header or footer, [RenderableType | Reducer]; [callable(rx)] tells
    the two apart. *)
Inductive RenderableOrReducer :=
| Literal (r : renderable)
| Callable (rx : Reducer).

(** The [key] argument of a field: an [Obj] path, a two-argument function,
    or a plain value ([None], a [str], or anything else). *)
Inductive KeyArg :=
| KeyPath (p : ObjType.t)
| KeyGetter (g : Getter)
| KeyValue (v : value).

(** The built-in [str] as a formatter. *)
Definition str : Formatter := fun v => Ok (RValue (VStr (py_str v))).

Module TableField.

Record t := mk {
  header : RenderableOrReducer;
  name : option string;
  getter : Getter;
  default : value;
  formatter : option Formatter;
  footer : RenderableOrReducer;
  style : value;
  header_style : value;
  footer_style : value;
  justify : string
}.

(** The keyword arguments of [TableField(...)]; [None] is an argument left
    out, which takes the default of the signature. *)
Record kwargs := mk_kwargs {
  kw_header : option RenderableOrReducer;
  kw_footer : option RenderableOrReducer;
  kw_key : option KeyArg;
  kw_default : option value;
  kw_formatter : option (option Formatter);
  kw_style : option value;
  kw_header_style : option value;
  kw_footer_style : option value;
  kw_justify : option string
}.

Definition no_kwargs : kwargs :=
  mk_kwargs None None None None None None None None None.

Definition invalid_key_type (key : value) : exc :=
  Exc TypeError ("Invalid key type: <class '" +:+ type_name key +:+ "'>").

(** [TableField.__init__] *)
Definition __init__ (kw : kwargs) : result t :=
  let key := from_option id (KeyValue VNone) (kw_key kw) in
  getter ←
    match key with
    | KeyValue VNone => Ok (ObjType.__call__ Obj)
    | KeyPath p => Ok (ObjType.__call__ p)
    | KeyGetter g => Ok g
    | KeyValue (VStr s) => Ok (ObjType.__call__ Obj.[KStr s])
    | KeyValue v => Raise (invalid_key_type v)
    end;
  Ok {| header := from_option id (Literal (RValue (VStr ""))) (kw_header kw);
        name := None;
        getter := getter;
        default := from_option id VNone (kw_default kw);
        formatter := from_option id (Some str) (kw_formatter kw);
        footer := from_option id (Literal (RValue (VStr ""))) (kw_footer kw);
        style := from_option id (VStr "") (kw_style kw);
        header_style := from_option id (VStr "") (kw_header_style kw);
        footer_style := from_option id (VStr "") (kw_footer_style kw);
        justify := from_option id "left" (kw_justify kw) |}.

(** [TableField._apply_style] *)
Definition _apply_style (val : renderable) (style : value) : renderable :=
  match val with
  | RValue (VStr s) => Text s style
  | _ => Styled val style
  end.

(** [TableField._get_field_value] *)
Definition _get_field_value (self : t) (obj : value) : result value :=
  val ← getter self obj (default self);
  Ok (if is_None val then default self else val).

(** [TableField._format_field_value] *)
Definition _format_field_value (self : t) (val : value) (apply_style : bool)
    (default_style : value) : result renderable :=
  let val := if is_None val then VStr "" else val in
  val ←
    match formatter self with
    | Some f => if negb (is_None val) then f val else Ok (RValue val)
    | None => Ok (RValue val)
    end;
  Ok (if apply_style then _apply_style val (py_or (style self) default_style)
      else val).

(** [TableField._reduce_and_format] *)
Definition _reduce_and_format (self : t) (rx : RenderableOrReducer)
    (values : list value) : result renderable :=
  match rx with
  | Callable rx =>
      value ← rx values;
      match formatter self with
      | Some f => if negb (is_None value) then f value else Ok (RValue value)
      | None => Ok (RValue value)
      end
  | Literal rx => Ok rx
  end.

(** [TableField._get_header] *)
Definition _get_header (self : t) (values : list value) (apply_style : bool)
    (default_style : value) : result renderable :=
  value ← _reduce_and_format self (header self) values;
  Ok (if apply_style
      then _apply_style value (py_or (header_style self) default_style)
      else value).

(** [TableField._get_footer] *)
Definition _get_footer (self : t) (values : list value) (apply_style : bool)
    (default_style : value) : result renderable :=
  value ← _reduce_and_format self (footer self) values;
  Ok (if apply_style
      then _apply_style value (py_or (footer_style self) default_style)
      else value).

End TableField.

(** [rich.table.Column], with the fields the builder sets. *)
Module Column.

Record t := mk {
  header : renderable;
  footer : renderable;
  justify : string;
  style : value;
  header_style : value;
  footer_style : value
}.

(** [Column(header)]: the other fields at their defaults. *)
Definition of_header (header : renderable) : t :=
  mk header (RValue (VStr "")) "left" (VStr "") (VStr "") (VStr "").

End Column.

(** [TableField.column] *)
Definition column (self : TableField.t) (header footer : renderable)
    : Column.t :=
  Column.mk header footer (TableField.justify self) (TableField.style self)
    (TableField.header_style self) (TableField.footer_style self).

(** ** TableBuilder *)

Module TableFieldContent.

Record t := mk {
  header : renderable;
  values : list renderable;
  footer : renderable
}.

End TableFieldContent.

(** [TableOptions], the keyword options handed on to [rich.table.Table]. *)
Abbreviation TableOptions := (gmap string value).

(** [table_kwargs.get(opt, d)] *)
Definition kwargs_get (table_kwargs : TableOptions) (opt : string) (d : value)
    : value :=
  from_option id d (table_kwargs !! opt).

(** The [rich.table.Table] under construction: the columns and options it
    was created with, and the [add_section] and [add_row] calls made on it,
    in order.  The class is rich's, not this library's: its constructor and
    [add_row] are taken to accept what they are given, so that a table rich
    itself would refuse (an option it does not know, a cell it cannot render)
    is a table here.  The statements on a build are therefore about a build
    that returns a table. *)
Inductive TableCall :=
| add_section
| add_row (row : list renderable).

Module Table.

Record t := mk {
  columns : list Column.t;
  kwargs : TableOptions;
  calls : list TableCall
}.

End Table.

(** [TableBuilder._build_field_content] *)
Definition _build_field_content (tf : TableField.t) (items : list value)
    (table_kwargs : TableOptions) (apply_style : bool)
    : result TableFieldContent.t :=
  values ← mapM (TableField._get_field_value tf) items;
  header ← TableField._get_header tf values apply_style
              (kwargs_get table_kwargs "header_style" (VStr ""));
  footer ← TableField._get_footer tf values apply_style
              (kwargs_get table_kwargs "footer_style" (VStr ""));
  values ← mapM (fun v => TableField._format_field_value tf v apply_style
                            (kwargs_get table_kwargs "style" (VStr "")))
                values;
  Ok (TableFieldContent.mk header values footer).

(** [n + v] for an [int] [n]: a [bool] counts as 0 or 1. *)
Definition int_add (n : Z) (v : value) : result Z :=
  match v with
  | VBool b => Ok (n + Z.b2z b)
  | VInt z => Ok (n + z)
  | _ =>
      Raise (Exc TypeError
               ("unsupported operand type(s) for +: 'int' and '"
                +:+ type_name v +:+ "'"))
  end.

(** [range(n)] *)
Definition range (n : Z) : list Z := Z.of_nat <$> seq 0 (Z.to_nat n).

(** The built-in [sorted(items, key=key)]: the keys are computed once, in
    order, and the items are put in non-decreasing key order by [<] alone,
    equal keys keeping their order (insertion of each item in front of the
    first later item that is not smaller). *)
Section Sorted.
Context {K A : Type} (lt : K -> K -> bool).

Fixpoint insert_sorted (x : K * A) (l : list (K * A)) : list (K * A) :=
  match l with
  | [] => [x]
  | y :: l' => if lt (fst y) (fst x) then y :: insert_sorted x l' else x :: l
  end.

Definition stable_sort (l : list (K * A)) : list (K * A) :=
  foldr insert_sorted [] l.

Definition sorted (key : A -> result K) (items : list A) : result (list A) :=
  keys ← mapM key items;
  Ok ((stable_sort (zip keys items)).*2).
End Sorted.

Section Builder.
(** The type of section keys, with its [<] (used by [sorted]) and its
    [!=] (used to place the section breaks). *)
Context {K : Type} (lt ne : K -> K -> bool).

(** A builder: [_table_fields] is what [TableBuilderMeta] collects, the
    [TableField] attributes of the class by name, in the order of the class
    body; [section_by] is a function of the record alone. *)
Record TableBuilder := mkTableBuilder {
  _table_fields : list (string * TableField.t);
  transposed : bool;
  section_by : option (value -> result K);
  default_table_kwargs : TableOptions
}.

(** A section marker: the section key of a row, or [None] for the [True]
    every row gets when there is no section function. *)
Definition marker_ne (a b : option K) : bool :=
  match a, b with
  | Some a, Some b => ne a b
  | None, None => false
  | _, _ => true
  end.

(** [for row_idx, val in enumerate(values): rows[row_idx].append(val)] *)
Fixpoint append_values (rows : list (list renderable))
    (values : list renderable) : result (list (list renderable)) :=
  match values, rows with
  | [], _ => Ok rows
  | val :: values, row :: rows =>
      rows ← append_values rows values; Ok ((row ++ [val]) :: rows)
  | _ :: _, [] => Raise (Exc IndexError "list index out of range")
  end.

(** The loop over the fields in [_build_table_normal]. *)
Fixpoint build_columns (fields : list TableField.t) (items : list value)
    (table_kwargs : TableOptions) (columns : list Column.t)
    (rows : list (list renderable))
    : result (list Column.t * list (list renderable)) :=
  match fields with
  | [] => Ok (columns, rows)
  | tf :: fields =>
      column_content ← _build_field_content tf items table_kwargs false;
      let columns :=
        columns ++
        [column tf (TableFieldContent.header column_content)
                (or_empty (TableFieldContent.footer column_content))] in
      rows ← append_values rows (TableFieldContent.values column_content);
      build_columns fields items table_kwargs columns rows
  end.

(** The loop over [zip(section_markers, rows)] in [_build_table_normal]. *)
Fixpoint add_rows (current_marker : option K)
    (zipped : list (option K * list renderable)) : list TableCall :=
  match zipped with
  | [] => []
  | (marker, row) :: rest =>
      if marker_ne marker current_marker
      then add_section :: add_row row :: add_rows marker rest
      else add_row row :: add_rows current_marker rest
  end.

(** [TableBuilder._build_table_normal] *)
Definition _build_table_normal (self : TableBuilder) (items : list value)
    (table_kwargs : TableOptions) : result Table.t :=
  '(items, section_markers) ←
    match section_by self with
    | Some f =>
        items ← sorted lt f items;
        markers ← mapM f items;
        Ok (items, Some <$> markers)
    | None => Ok (items, replicate (length items) None)
    end;
  '(columns, rows) ←
    build_columns (_table_fields self).*2 items table_kwargs []
      (replicate (length items) []);
  calls ←
    match rows with
    | [] => Ok []
    | _ :: _ =>
        match section_markers with
        | current_marker :: _ =>
            Ok (add_rows current_marker (zip section_markers rows))
        | [] => Raise (Exc IndexError "list index out of range")
        end
    end;
  Ok (Table.mk columns table_kwargs calls).

(** [TableBuilder._build_table_transposed] *)
Definition _build_table_transposed (self : TableBuilder)
    (values : list value) (table_kwargs : TableOptions) : result Table.t :=
  let show_header := kwargs_get table_kwargs "show_header" (VBool true) in
  let table_kwargs := delete "show_header" table_kwargs in
  let show_footer := kwargs_get table_kwargs "show_footer" (VBool false) in
  let table_kwargs := delete "show_footer" table_kwargs in
  let table_kwargs := <["show_header" := VBool false]> table_kwargs in
  let table_kwargs := <["show_footer" := VBool false]> table_kwargs in
  column_count ← int_add (Z.of_nat (length values)) show_header;
  column_count ← int_add column_count show_footer;
  let columns :=
    (fun n => Column.of_header (RValue (VStr ("row" +:+ pretty n))))
      <$> range column_count in
  rows ←
    mapM (fun tf =>
            row_content ← _build_field_content tf values table_kwargs true;
            Ok ((if py_truthy show_header
                 then [or_empty (TableFieldContent.header row_content)]
                 else [])
                ++ TableFieldContent.values row_content
                ++ (if py_truthy show_footer
                    then [or_empty (TableFieldContent.footer row_content)]
                    else [])))
         (_table_fields self).*2;
  Ok (Table.mk columns table_kwargs (add_row <$> rows)).

(** [TableBuilder._build_table] *)
Definition _build_table (self : TableBuilder) (items : list value)
    (table_kwargs : TableOptions) (transposed_arg : option bool)
    : result Table.t :=
  let transposed :=
    match transposed_arg with
    | None => transposed self
    | Some b => b
    end in
  if transposed then _build_table_transposed self items table_kwargs
  else _build_table_normal self items table_kwargs.
End Builder.

(** ** style_by_value *)

(** [style_by_value(next_style)] returns a closure over a fresh dictionary
    [seen_values].  The closures alive are kept by address, each with its own
    dictionary; [next_style] is a callable with state of its own (the module's
    [rainbow_cycle] keeps a global index), shared by every closure built on
    it.  [V] is the type of the hashable values the closures are applied to
    and [eqb] their [==]; a [Styled(value, style=style)] is the pair
    [(value, style)]. *)
Section StyleByValue.
Context {V S G : Type} (eqb : V -> V -> bool) (next_style : G -> S * G).

(** A [dict]: the items in insertion order, a key found by [==]. *)
Fixpoint seen_get (seen_values : list (V * S)) (value : V) : option S :=
  match seen_values with
  | [] => None
  | (k, style) :: rest =>
      if eqb k value then Some style else seen_get rest value
  end.

Fixpoint seen_set (seen_values : list (V * S)) (value : V) (style : S)
    : list (V * S) :=
  match seen_values with
  | [] => [(value, style)]
  | (k, old) :: rest =>
      if eqb k value then (k, style) :: rest
      else (k, old) :: seen_set rest value style
  end.

Record world := mkWorld {
  generator : G;
  closures : list (list (V * S))
}.

(** [style_by_value(next_style)]: the address of the new closure. *)
Definition style_by_value (w : world) : nat * world :=
  (length (closures w), mkWorld (generator w) (closures w ++ [[]])).

(** The closure [format_value] at address [f], applied to [value]. *)
Definition format_value (f : nat) (value : V) (w : world)
    : option (result (V * S) * world) :=
  seen_values ← closures w !! f;
  let '(seen_values, g) :=
    match seen_get seen_values value with
    | None =>
        let '(style, g) := next_style (generator w) in
        (seen_set seen_values value style, g)
    | Some _ => (seen_values, generator w)
    end in
  let w := mkWorld g (<[f := seen_values]> (closures w)) in
  match seen_get seen_values value with
  | Some style => Some (Ok (value, style), w)
  | None => Some (Raise (Exc KeyError ""), w)
  end.

(** One call made by the program: a closure is created or applied. *)
Inductive call_step : world -> world -> Prop :=
| step_create w : call_step w (style_by_value w).2
| step_apply f value w r w' :
    format_value f value w = Some (r, w') -> call_step w w'.
End StyleByValue.

(** [RAINBOW_COLORS] and [rainbow_cycle], the generator of the module; its
    state is the global [_rainbow_idx]. *)
Definition RAINBOW_COLORS : list string :=
  ["red"; "orange1"; "yellow2"; "green3"; "cyan1"; "deep_sky_blue1";
   "dark_blue"; "dark_violet"].

Definition rainbow_cycle (_rainbow_idx : nat) : string * nat :=
  (nth _rainbow_idx RAINBOW_COLORS "",
   (_rainbow_idx + 1) mod length RAINBOW_COLORS)%nat.

(** ** Accessor paths as objects *)

(** The [ObjType] instances alive, by address; creating one never touches
    the others. *)
Module PathStore.

Definition t : Type := list ObjType.t.

(** [ObjType(accessors, transforms)]: the address of the new instance. *)
Definition new (o : ObjType.t) (st : t) : nat * t := (length st, st ++ [o]).

(** [p[k]] for the instance at address [p]. *)
Definition getitem (p : nat) (k : key) (st : t) : option (nat * t) :=
  self ← st !! p;
  Some (new (ObjType.__getitem__ self k) st).

(** [p.k] for the instance at address [p]. *)
Definition getattr (p : nat) (k : string) (st : t) : option (nat * t) :=
  self ← st !! p;
  Some (new (ObjType.__getattr__ self k) st).

End PathStore.

(** ** Vocabulary of the statements *)

(** The lookup of one accessor step as the body of the first loop of
    [ObjType.__call__] performs it: [obj[k]] with [KeyError] and
    [IndexError] turned into [MISSING], or [getattr(obj, k, MISSING)]. *)
Definition lookup_step (a : accessor) (obj : value) : result value :=
  let (t, k) := a in
  if decide (t = "key") then
    match py_getitem obj k with
    | Ok v => Ok v
    | Raise e =>
        match exc_cls e with
        | KeyError | IndexError => Ok MISSING
        | _ => Raise e
        end
    end
  else
    match k with
    | KStr name => Ok (py_getattr obj name MISSING)
    | KInt _ => Raise (Exc AssertionError "")
    end.

(** The rest of the loop body: what becomes of the looked-up value. *)
Definition missing_check (self : ObjType.t) (default obj : value)
    : result value :=
  if is_MISSING obj then
    if is_NO_DEFAULT default then Raise (Exc KeyError (ObjType.__repr__ self))
    else Ok default
  else Ok obj.

(** [reaches accs obj v]: starting from [obj], every step of [accs] finds
    its key, index or attribute, and the chained lookups end in [v]. *)
Inductive reaches : list accessor -> value -> value -> Prop :=
| reaches_nil obj : reaches [] obj obj
| reaches_cons a accs obj v w :
    lookup_step a obj = Ok v -> is_MISSING v = false ->
    reaches accs v w -> reaches (a :: accs) obj w.

(** The resolution of a path as the specification words it: a failed
    lookup makes the current value the missing marker, the later steps of a
    missing value are missing too, and only after all steps is the default
    applied, or the error naming the path raised; the transforms are applied
    to a value that was found. *)
Fixpoint walk_spec (accs : list accessor) (obj : value) : result value :=
  match accs with
  | [] => Ok obj
  | a :: rest =>
      if is_MISSING obj then walk_spec rest MISSING
      else o ← lookup_step a obj; walk_spec rest o
  end.

Definition resolve_spec (self : ObjType.t) (obj default : value)
    : result value :=
  o ← walk_spec (ObjType.__accessors__ self) obj;
  if is_MISSING o then
    if is_NO_DEFAULT default then Raise (Exc KeyError (ObjType.__repr__ self))
    else Ok default
  else ObjType.apply_transforms (ObjType.__transforms__ self) o.

(** [a] may stand before [b] in a list sorted by key: [b] is not smaller. *)
Definition key_le {K A : Type} (lt : K -> K -> bool) (a b : K * A) : Prop :=
  lt b.1 a.1 = false.

(** The segment of one step in the textual form of a path: [[repr(k)]] or
    [.k]. *)
Definition segment (a : accessor) : string :=
  let (t, k) := a in
  if decide (t = "key") then "[" +:+ py_repr_key k +:+ "]"
  else "." +:+ py_str_key k.

(** The built-in [sum] over [int] and [bool] values. *)
Definition py_sum : Reducer := fun values =>
  total ← foldl (fun acc v => acc ← acc; int_add acc v) (Ok 0) values;
  Ok (VInt total).

(** A field declared with a header, a string key and the given footer, the
    other arguments left out. *)
Definition field_kwargs (header key : string)
    (footer : option RenderableOrReducer) : TableField.kwargs :=
  {| TableField.kw_header := Some (Literal (RValue (VStr header)));
     TableField.kw_footer := footer;
     TableField.kw_key := Some (KeyValue (VStr key));
     TableField.kw_default := None;
     TableField.kw_formatter := None;
     TableField.kw_style := None;
     TableField.kw_header_style := None;
     TableField.kw_footer_style := None;
     TableField.kw_justify := None |}.

(** [except (KeyError, IndexError)] *)
Definition caught (e : exc) : bool :=
  match exc_cls e with
  | KeyError | IndexError => true
  | _ => false
  end.

(** [lambda v: f"[{v}]"], a formatter that shows what it was given. *)
Definition bracket : Formatter :=
  fun v => Ok (RValue (VStr ("[" +:+ py_str v +:+ "]"))).

(** [lambda values: None], a reducer with nothing to report. *)
Definition no_total : Reducer := fun _ => Ok VNone.

(** The formatter of a field applied to a value, the identity when the
    field has none. *)
Definition apply_formatter (self : TableField.t) (v : value)
    : result renderable :=
  match TableField.formatter self with
  | Some f => f v
  | None => Ok (RValue v)
  end.

(** The style annotation of a cell, when one is requested. *)
Definition styled (apply_style : bool) (style : value) (r : renderable)
    : renderable :=
  if apply_style then TableField._apply_style r style else r.

(** A field declared with the given key alone: [TableField(key=key)]. *)
Definition key_kwargs (key : KeyArg) : TableField.kwargs :=
  {| TableField.kw_header := None;
     TableField.kw_footer := None;
     TableField.kw_key := Some key;
     TableField.kw_default := None;
     TableField.kw_formatter := None;
     TableField.kw_style := None;
     TableField.kw_header_style := None;
     TableField.kw_footer_style := None;
     TableField.kw_justify := None |}.

(** A field declared with the given formatter alone:
    [TableField(formatter=f)]. *)
Definition formatter_kwargs (f : option Formatter) : TableField.kwargs :=
  {| TableField.kw_header := None;
     TableField.kw_footer := None;
     TableField.kw_key := None;
     TableField.kw_default := None;
     TableField.kw_formatter := Some f;
     TableField.kw_style := None;
     TableField.kw_header_style := None;
     TableField.kw_footer_style := None;
     TableField.kw_justify := None |}.

(** [TableField("Quantity", key="quantity", footer=lambda values: None)], as
    [__init__] builds it. *)
Definition no_total_field : TableField.t :=
  {| TableField.header := Literal (RValue (VStr "Quantity"));
     TableField.name := None;
     TableField.getter := ObjType.__call__ Obj.[KStr "quantity"];
     TableField.default := VNone;
     TableField.formatter := Some str;
     TableField.footer := Callable no_total;
     TableField.style := VStr "";
     TableField.header_style := VStr "";
     TableField.footer_style := VStr "";
     TableField.justify := "left" |}.

(** The table of the module docstring, with the fields and records of a
    small cart: [name], [qty] with [footer=sum], [price] with [footer="-"]. *)
Definition cart_fields : result (list (string * TableField.t)) :=
  name ← TableField.__init__ (field_kwargs "name" "name" None);
  qty ← TableField.__init__ (field_kwargs "qty" "quantity" (Some (Callable py_sum)));
  price ← TableField.__init__
            (field_kwargs "price" "price" (Some (Literal (RValue (VStr "-")))));
  Ok [("name", name); ("qty", qty); ("price", price)].

Definition cart : list value :=
  [VDict [(KStr "name", VStr "A"); (KStr "quantity", VInt 1);
          (KStr "price", VInt 10)];
   VDict [(KStr "name", VStr "B"); (KStr "quantity", VInt 2);
          (KStr "price", VInt 20)]].

Definition show_both : TableOptions :=
  {[ "show_header" := VBool true; "show_footer" := VBool true ]}.

Definition cart_builder : @TableBuilder Z :=
  mkTableBuilder
    (match cart_fields with Ok fields => fields | Raise _ => [] end)
    false None ∅.

(** The row of one record in a normal build: for each field, in order, the
    value extracted from the record and then formatted. *)
Definition row_of (fields : list TableField.t) (table_kwargs : TableOptions)
    (item : value) : result (list renderable) :=
  mapM (fun tf =>
          v ← TableField._get_field_value tf item;
          TableField._format_field_value tf v false
            (kwargs_get table_kwargs "style" (VStr "")))
       fields.

Section SectionVocabulary.
Context {K : Type} (lt ne : K -> K -> bool).

(** Two keys tie in the sort when neither is smaller than the other. *)
Definition tie (a b : K) : bool := negb (lt a b) && negb (lt b a).

(** The calls of a sectioned table as the specification words them: the
    rows in order, and a section break in front of a row exactly when its
    key differs from the key of the row before it. *)
Fixpoint calls_after (previous : K) (rows : list (K * list renderable))
    : list TableCall :=
  match rows with
  | [] => []
  | (k, row) :: rest =>
      (if ne k previous then [add_section] else [])
      ++ add_row row :: calls_after k rest
  end.

Definition sectioned_calls (rows : list (K * list renderable))
    : list TableCall :=
  match rows with
  | [] => []
  | (k, row) :: rest => add_row row :: calls_after k rest
  end.
End SectionVocabulary.

(** Section keys that are integers: [<] and [!=] on [int]. *)
Definition int_lt (a b : Z) : bool := a <? b.
Definition int_ne (a b : Z) : bool := negb (a =? b).

(** [lambda item: operator.index(item["group"])], a section function whose
    keys are integers. *)
Definition group_of : value -> result Z := fun item =>
  g ← ObjType.__call__ Obj.[KStr "group"] item NO_DEFAULT;
  match g with
  | VInt z => Ok z
  | VBool b => Ok (Z.b2z b)
  | _ =>
      Raise (Exc TypeError
               ("'" +:+ type_name g
                +:+ "' object cannot be interpreted as an integer"))
  end.

Definition grouped (name : string) (group : Z) : value :=
  VDict [(KStr "name", VStr name); (KStr "group", VInt group)].

Definition grouped_items : list value :=
  [grouped "a" 2; grouped "b" 1; grouped "c" 2; grouped "d" 1].

Definition grouped_builder : @TableBuilder Z :=
  mkTableBuilder
    (match TableField.__init__ (field_kwargs "Name" "name" None) with
     | Ok name => [("name", name)]
     | Raise _ => []
     end)
    false (Some group_of) ∅.

(** [remembers w f value style]: the dictionary of the closure at address
    [f] maps [value] to [style]. *)
Definition remembers {V S G : Type} (eqb : V -> V -> bool) (w : @world V S G)
    (f : nat) (value : V) (style : S) : Prop :=
  exists seen_values,
    closures w !! f = Some seen_values /\
    seen_get eqb seen_values value = Some style.

(** [raised_by_caller key tf e]: the exception [e] comes out of code the
    caller of the library supplied to the field [tf] declared with [key]: a
    transform of the key path, the key function, a header or footer reducer,
    or the formatter. *)
Definition raised_by_caller (key : KeyArg) (tf : TableField.t) (e : exc)
    : Prop :=
  (exists p obj, key = KeyPath p /\
     ObjType.apply_transforms (ObjType.__transforms__ p) obj = Raise e) \/
  (exists g obj, key = KeyGetter g /\ g obj (TableField.default tf) = Raise e) \/
  (exists rx values,
     (TableField.header tf = Callable rx \/ TableField.footer tf = Callable rx) /\
     rx values = Raise e) \/
  (exists f v, TableField.formatter tf = Some f /\ f v = Raise e).

(** Two paths alive: [Obj] and the base [Obj["a"]], at address 1. *)
Definition two_paths : PathStore.t := [Obj; Obj.[KStr "a"]].

(** The world after [formatter = style_by_value(rainbow_cycle)], at the
    start of the module: the closure is at address 0. *)
Definition one_closure : @world string string nat :=
  (style_by_value (mkWorld 0%nat [])).2.

(** ** The entry points of TableBuilder *)

(** [for opt, val in kwargs.items(): table_kwargs[opt] = val] *)
Definition update_kwargs (table_kwargs kwargs : TableOptions) : TableOptions :=
  map_fold (fun opt val acc => <[opt := val]> acc) table_kwargs kwargs.

Section BuilderEntryPoints.
Context {K : Type} (lt ne : K -> K -> bool).

(** [TableBuilder.__init__], for a class whose fields are [fields]. *)
Definition TableBuilder__init__ (fields : list (string * TableField.t))
    (transposed : bool) (section_by : option (value -> result K))
    (kwargs : TableOptions) : @TableBuilder K :=
  mkTableBuilder fields transposed section_by
    (update_kwargs
       {[ "show_header" := kwargs_get kwargs "show_header" (VBool true);
          "show_footer" := kwargs_get kwargs "show_footer" (VBool false);
          "style" := kwargs_get kwargs "style" (VStr "none");
          "header_style" := kwargs_get kwargs "header_style" (VStr "table.header");
          "footer_style" := kwargs_get kwargs "footer_style" (VStr "table.footer") ]}
       kwargs).

(** [TableBuilder.__call__(self, data, transposed=False, **kwargs)]: the
    options of the builder are copied and the options of the call set on the
    copy. *)
Definition TableBuilder__call__ (self : @TableBuilder K) (data : list value)
    (transposed : bool) (kwargs : TableOptions) : result Table.t :=
  let table_kwargs := update_kwargs (default_table_kwargs self) kwargs in
  _build_table lt ne self data table_kwargs (Some transposed).

(** [TableBuilder.build(data, transposed, section_by, **kwargs)], for a
    class whose fields are [fields]. *)
Definition build (fields : list (string * TableField.t)) (data : list value)
    (transposed : bool) (section_by : option (value -> result K))
    (kwargs : TableOptions) : result Table.t :=
  TableBuilder__call__ (TableBuilder__init__ fields transposed section_by kwargs)
    data false ∅.
End BuilderEntryPoints.

(** ** More vocabulary *)

(** The cells of the rows added to a table, in order. *)
Definition table_rows (t : Table.t) : list (list renderable) :=
  omap (fun c => match c with add_row row => Some row | add_section => None end)
       (Table.calls t).

(** For each row added, in order, the number of section breaks made before
    it: the index of its section, counted from [n]. *)
Fixpoint row_sections (n : nat) (calls : list TableCall) : list nat :=
  match calls with
  | [] => []
  | add_section :: rest => row_sections (S n) rest
  | add_row _ :: rest => n :: row_sections n rest
  end.

(** The column a field gives in a normal build of the records [items]. *)
Definition column_of (table_kwargs : TableOptions) (items : list value)
    (tf : TableField.t) : result Column.t :=
  c ← _build_field_content tf items table_kwargs false;
  Ok (column tf (TableFieldContent.header c)
        (or_empty (TableFieldContent.footer c))).

(** A value that can be added to an [int]: a [bool] or an [int]. *)
Definition is_flag (v : value) : bool :=
  match v with VBool _ | VInt _ => true | _ => false end.

Section StyleRuns.
Context {V S G : Type} (eqb : V -> V -> bool) (next_style : G -> S * G).

(** [[formatter(v) for v in values]] for the closure at address [f]. *)
Fixpoint format_values (f : nat) (values : list V) (w : @world V S G)
    : option (list (result (V * S)) * @world V S G) :=
  match values with
  | [] => Some ([], w)
  | value :: rest =>
      '(r, w) ← format_value eqb next_style f value w;
      '(rs, w) ← format_values f rest w;
      Some (r :: rs, w)
  end.

(** The next [n] styles of the generator, and its state after them. *)
Fixpoint next_styles (n : nat) (g : G) : list S * G :=
  match n with
  | O => ([], g)
  | Datatypes.S n =>
      let '(style, g) := next_style g in
      let '(styles, g) := next_styles n g in
      (style :: styles, g)
  end.

(** No two values of the list are equal. *)
Fixpoint all_different (values : list V) : bool :=
  match values with
  | [] => true
  | v :: rest => forallb (fun v' => negb (eqb v v')) rest && all_different rest
  end.
End StyleRuns.

(** The options [TableBuilder.__init__] sets when the caller does not. *)
Definition builtin_option (opt : string) : option value :=
  if decide (opt = "show_header") then Some (VBool true)
  else if decide (opt = "show_footer") then Some (VBool false)
  else if decide (opt = "style") then Some (VStr "none")
  else if decide (opt = "header_style") then Some (VStr "table.header")
  else if decide (opt = "footer_style") then Some (VStr "table.footer")
  else None.


(** A field with the key ["name"] and the default ["n/a"]. *)
Definition name_or_na : TableField.kwargs :=
  {| TableField.kw_header := None;
     TableField.kw_footer := None;
     TableField.kw_key := Some (KeyValue (VStr "name"));
     TableField.kw_default := Some (VStr "n/a");
     TableField.kw_formatter := None;
     TableField.kw_style := None;
     TableField.kw_header_style := None;
     TableField.kw_footer_style := None;
     TableField.kw_justify := None |}.

(** The options of a call with [show_header=None]. *)
Definition header_None : TableOptions := {[ "show_header" := VNone ]}.

(** The options of a call with neither header nor footer shown. *)
Definition show_neither : TableOptions :=
  {[ "show_header" := VBool false; "show_footer" := VBool false ]}.

(** Options given to the constructor and to the call of a builder. *)
Definition bold_no_header : TableOptions :=
  {[ "style" := VStr "bold"; "show_header" := VBool false ]}.

Definition dim_titled : TableOptions :=
  {[ "style" := VStr "dim"; "title" := VStr "Cart" ]}.

(** * Properties *)

(** ** The error monad *)

Lemma Ok_bind {A B : Type} (a : A) (f : A -> result B) : Ok a ≫= f = f a.
Proof. reflexivity. Qed.

Lemma Raise_bind {A B : Type} (e : exc) (f : A -> result B) :
  Raise e ≫= f = Raise e.
Proof. reflexivity. Qed.

Lemma bind_Ok {A B : Type} (m : result A) (f : A -> result B) (b : B) :
  m ≫= f = Ok b <-> exists a, m = Ok a /\ f a = Ok b.
Proof.
  destruct m as [a|e]; simpl; split.
  - intros H. exists a. split; [reflexivity | exact H].
  - intros (a' & Ha & Hf). injection Ha as ->. exact Hf.
  - discriminate.
  - intros (a' & Ha & _). discriminate.
Qed.

Lemma mapM_Ok {A B : Type} (f : A -> result B) (l : list A) (l' : list B) :
  mapM f l = Ok l' <-> Forall2 (fun x y => f x = Ok y) l l'.
Proof.
  revert l'. induction l as [|x l IH]; intros l'; simpl.
  - split.
    + intros H. injection H as <-. constructor.
    + intros H. inversion H. reflexivity.
  - split.
    + intros H. apply bind_Ok in H as (y & Hy & H).
      apply bind_Ok in H as (k & Hk & H). injection H as <-.
      constructor; [exact Hy | apply IH, Hk].
    + intros H. inversion H as [|? y ? k Hy Hk]; subst.
      rewrite Hy. simpl. apply IH in Hk. rewrite Hk. reflexivity.
Qed.

Lemma mapM_length {A B : Type} (f : A -> result B) (l : list A) (l' : list B) :
  mapM f l = Ok l' -> length l' = length l.
Proof.
  intros H. apply mapM_Ok in H. symmetry. eapply Forall2_length, H.
Qed.

(** ** Accessor paths *)

Lemma walk_cons self default a rest obj :
  ObjType.walk self default (a :: rest) obj
  = (o ← lookup_step a obj; o ← missing_check self default o;
     ObjType.walk self default rest o).
Proof. destruct a as [t k]. reflexivity. Qed.

Lemma walk_app self default pre post obj :
  ObjType.walk self default (pre ++ post) obj
  = (o ← ObjType.walk self default pre obj; ObjType.walk self default post o).
Proof.
  revert obj. induction pre as [|a pre IH]; intros obj; [reflexivity|].
  rewrite <- app_comm_cons, !walk_cons.
  destruct (lookup_step a obj) as [o|e]; [|reflexivity]. simpl.
  destruct (missing_check self default o) as [o'|e]; [|reflexivity]. simpl.
  apply IH.
Qed.

(** A path whose steps are all present is the chained lookup, whatever the
    default. *)
Lemma walk_reaches self default accs obj v :
  reaches accs obj v -> ObjType.walk self default accs obj = Ok v.
Proof.
  induction 1 as [|a accs obj v w Hl Hm _ IH]; [reflexivity|].
  rewrite walk_cons, Hl. simpl. unfold missing_check. rewrite Hm. exact IH.
Qed.

Lemma repr_segments self :
  ObjType.__repr__ self
  = "Obj" +:+ join "" (segment <$> ObjType.__accessors__ self).
Proof.
  unfold ObjType.__repr__, join. simpl.
  destruct (ObjType.__accessors__ self) as [|a l]; reflexivity.
Qed.

(** X4: with no default, a path with an absent step raises [KeyError] at
    that step, and the message is the textual form of the whole path: [Obj]
    followed by one segment per step, in order. *)
Lemma absent_step_raises_path self pre a post obj v :
  ObjType.__accessors__ self = pre ++ a :: post ->
  reaches pre obj v ->
  lookup_step a v = Ok MISSING ->
  ObjType.__call__ self obj NO_DEFAULT
  = Raise (Exc KeyError
             ("Obj" +:+ join "" (segment <$> ObjType.__accessors__ self))).
Proof.
  intros Hacc Hpre Ha. unfold ObjType.__call__.
  rewrite <- repr_segments. rewrite Hacc at 1.
  rewrite walk_app, (walk_reaches _ _ _ _ _ Hpre), Ok_bind.
  rewrite walk_cons, Ha. reflexivity.
Qed.

(** When the absent step is the last one, the default is what the
    transforms receive, and the result when there is none. *)
Lemma absent_last_step_default self pre a obj v default :
  ObjType.__accessors__ self = pre ++ [a] ->
  reaches pre obj v ->
  lookup_step a v = Ok MISSING ->
  is_NO_DEFAULT default = false ->
  ObjType.__call__ self obj default
  = ObjType.apply_transforms (ObjType.__transforms__ self) default.
Proof.
  intros Hacc Hpre Ha Hd. unfold ObjType.__call__.
  rewrite Hacc, walk_app, (walk_reaches _ _ _ _ _ Hpre), Ok_bind.
  rewrite walk_cons, Ha, Ok_bind. unfold missing_check. simpl is_MISSING.
  cbv iota. rewrite Hd. reflexivity.
Qed.

(** A default supplied by the caller replaces the missing value inside the
    loop, at the step that failed, and the steps that are left are then
    looked up in the default itself. *)
Lemma absent_step_default_walks_on self pre a post obj v default :
  ObjType.__accessors__ self = pre ++ a :: post ->
  reaches pre obj v ->
  lookup_step a v = Ok MISSING ->
  is_NO_DEFAULT default = false ->
  ObjType.__call__ self obj default
  = (o ← ObjType.walk self default post default;
     ObjType.apply_transforms (ObjType.__transforms__ self) o).
Proof.
  intros Hacc Hpre Ha Hd. unfold ObjType.__call__.
  rewrite Hacc, walk_app, (walk_reaches _ _ _ _ _ Hpre), Ok_bind.
  rewrite walk_cons, Ha, Ok_bind. unfold missing_check. simpl is_MISSING.
  cbv iota. rewrite Hd. reflexivity.
Qed.

Lemma walk_spec_missing accs obj :
  is_MISSING obj = true -> walk_spec accs obj = Ok MISSING.
Proof.
  revert obj. induction accs as [|a accs IH]; intros obj Hm; simpl.
  - destruct obj as [| | | | | | | |[]]; try discriminate. reflexivity.
  - rewrite Hm. apply IH. reflexivity.
Qed.

(** With no default the loop of the source and the resolution of the
    specification agree: raising at the step that failed is raising after
    the steps that are left. *)
Lemma call_without_default_is_resolve_spec self obj :
  is_MISSING obj = false ->
  ObjType.__call__ self obj NO_DEFAULT = resolve_spec self obj NO_DEFAULT.
Proof.
  unfold ObjType.__call__, resolve_spec.
  generalize (ObjType.__accessors__ self) as accs. intros accs. revert obj.
  induction accs as [|a accs IH]; intros obj Hobj.
  - simpl. rewrite Hobj. reflexivity.
  - rewrite walk_cons. simpl walk_spec. rewrite Hobj.
    destruct (lookup_step a obj) as [o|e]; [|reflexivity].
    rewrite !Ok_bind. unfold missing_check.
    destruct (is_MISSING o) eqn:Ho.
    + rewrite (walk_spec_missing accs o Ho). reflexivity.
    + rewrite Ok_bind. apply IH, Ho.
Qed.

(** C2: [Obj["a"]["b"]] on the empty dictionary with the default
    [{"b": 5}].  The step ["a"] is absent; the default replaces the missing
    value at that step, inside the loop, and the step ["b"] is then looked up
    in the default: the call returns [5], where the resolution that
    substitutes the default once, after all steps, returns the default. *)
Theorem default_walked_by_later_steps :
  let p := Obj.[KStr "a"].[KStr "b"] in
  let default := VDict [(KStr "b", VInt 5)] in
  lookup_step ("key", KStr "a") (VDict []) = Ok MISSING /\
  ObjType.__call__ p (VDict []) default = Ok (VInt 5) /\
  resolve_spec p (VDict []) default = Ok default.
Proof.
  intros p default. split; [reflexivity|]. split; [|reflexivity].
  rewrite (absent_step_default_walks_on p [] ("key", KStr "a")
             [("key", KStr "b")] (VDict []) (VDict []) default eq_refl
             (reaches_nil _) eq_refl eq_refl).
  reflexivity.
Qed.

(** C3: [Obj["contact"]["address"]], the path of the docstring of
    [TableField], on a record without ["contact"].  With no default the call
    raises [KeyError] with the path as message.  With the default [0] it does
    not return [0]: the step ["address"] is looked up in [0] and its
    [TypeError] reaches the caller; a field declared with that path and the
    default [None] of the signature fails in the same way, where the
    resolution of the specification returns the default. *)
Theorem default_not_returned_mid_path :
  let p := Obj.[KStr "contact"].[KStr "address"] in
  lookup_step ("key", KStr "contact") (VDict []) = Ok MISSING /\
  ObjType.__call__ p (VDict []) NO_DEFAULT
  = Raise (Exc KeyError "Obj['contact']['address']") /\
  ObjType.__call__ p (VDict []) (VInt 0)
  = Raise (Exc TypeError "'int' object is not subscriptable") /\
  resolve_spec p (VDict []) (VInt 0) = Ok (VInt 0) /\
  (tf ← TableField.__init__ (key_kwargs (KeyPath p));
   TableField._get_field_value tf (VDict []))
  = Raise (Exc TypeError "'NoneType' object is not subscriptable").
Proof. intros p. repeat split; vm_compute; reflexivity. Qed.

(** C10: when [obj[k]] raises at a key step, the exception reaches the
    caller as it is unless it is a [KeyError] or an [IndexError]; only those
    two make the step a missing one, handled like any missing lookup (the
    [KeyError] naming the path, or the default). *)
Theorem getitem_error_propagates self default pre k post obj v e :
  ObjType.__accessors__ self = pre ++ ("key", k) :: post ->
  ObjType.walk self default pre obj = Ok v ->
  py_getitem v k = Raise e ->
  (caught e = false -> ObjType.__call__ self obj default = Raise e) /\
  (caught e = true ->
   lookup_step ("key", k) v = Ok MISSING /\
   ObjType.__call__ self obj default
   = (o ← missing_check self default MISSING;
      o ← ObjType.walk self default post o;
      ObjType.apply_transforms (ObjType.__transforms__ self) o)).
Proof.
  intros Hacc Hpre Hk.
  assert (Hcall : ObjType.__call__ self obj default
                  = (o ← lookup_step ("key", k) v;
                     o ← missing_check self default o;
                     o ← ObjType.walk self default post o;
                     ObjType.apply_transforms (ObjType.__transforms__ self) o)).
  { unfold ObjType.__call__. rewrite Hacc, walk_app, Hpre, Ok_bind.
    rewrite walk_cons.
    destruct (lookup_step ("key", k) v) as [o|e']; [|reflexivity]. simpl.
    destruct (missing_check self default o); reflexivity. }
  assert (Hstep : lookup_step ("key", k) v
                  = if caught e then Ok MISSING else Raise e).
  { unfold lookup_step, caught. simpl. rewrite Hk.
    destruct (exc_cls e); reflexivity. }
  split; intros Hc; rewrite Hc in Hstep.
  - rewrite Hcall, Hstep. reflexivity.
  - split; [exact Hstep|]. rewrite Hcall, Hstep. reflexivity.
Qed.

(** [Obj["a"]["b"]] on [{"a": 7}] with a default: [7["b"]] raises
    [TypeError], and the default is not used. *)
Lemma getitem_error_propagates_witness :
  ObjType.__call__ Obj.[KStr "a"].[KStr "b"] (VDict [(KStr "a", VInt 7)])
    (VStr "default")
  = Raise (not_subscriptable (VInt 7)).
Proof.
  apply (getitem_error_propagates Obj.[KStr "a"].[KStr "b"] (VStr "default")
           [("key", KStr "a")] (KStr "b") [] (VDict [(KStr "a", VInt 7)])
           (VInt 7) (not_subscriptable (VInt 7)));
    reflexivity.
Defined.

(** C9: [p[k]] and [p.name] create a new path whose steps are the steps of
    [p] followed by the new step; the path [p], like every other path alive,
    is left as it was, so it can be the base of further paths. *)
Theorem derived_path_extends_prefix (st : PathStore.t) (p : nat)
    (self : ObjType.t) :
  st !! p = Some self ->
  (forall k, exists q st' derived,
      PathStore.getitem p k st = Some (q, st') /\
      st' !! q = Some derived /\
      ObjType.__accessors__ derived
      = ObjType.__accessors__ self ++ [("key", k)] /\
      st !! q = None /\
      forall r o, st !! r = Some o -> st' !! r = Some o) /\
  (forall name, exists q st' derived,
      PathStore.getattr p name st = Some (q, st') /\
      st' !! q = Some derived /\
      ObjType.__accessors__ derived
      = ObjType.__accessors__ self ++ [("attr", KStr name)] /\
      st !! q = None /\
      forall r o, st !! r = Some o -> st' !! r = Some o).
Proof.
  intros Hp.
  assert (Hnew : forall o : ObjType.t,
             (st ++ [o]) !! length st = Some o /\
             st !! length st = None /\
             forall r o', st !! r = Some o' -> (st ++ [o]) !! r = Some o').
  { intros o. split; [|split].
    - apply list_lookup_middle. reflexivity.
    - apply lookup_ge_None_2. lia.
    - intros r o' Hr. apply lookup_app_l_Some, Hr. }
  split.
  - intros k. destruct (Hnew (ObjType.__getitem__ self k)) as (H1 & H2 & H3).
    exists (length st), (st ++ [ObjType.__getitem__ self k]),
      (ObjType.__getitem__ self k).
    unfold PathStore.getitem. rewrite Hp. simpl. auto.
  - intros name.
    destruct (Hnew (ObjType.__getattr__ self name)) as (H1 & H2 & H3).
    exists (length st), (st ++ [ObjType.__getattr__ self name]),
      (ObjType.__getattr__ self name).
    unfold PathStore.getattr. rewrite Hp. simpl. auto.
Qed.

(** [Obj["a"]] as a shared base: [base.b] and then [base[0]] both extend
    the steps of the base, which still has its single step. *)
Lemma derived_path_extends_prefix_witness :
  exists q1 st1 q2 st2,
    PathStore.getattr 1 "b" two_paths = Some (q1, st1) /\
    PathStore.getitem 1 (KInt 0) st1 = Some (q2, st2) /\
    ObjType.__accessors__ <$> st2 !! 1%nat = Some [("key", KStr "a")] /\
    ObjType.__accessors__ <$> st2 !! q1
    = Some [("key", KStr "a"); ("attr", KStr "b")] /\
    ObjType.__accessors__ <$> st2 !! q2
    = Some [("key", KStr "a"); ("key", KInt 0)].
Proof.
  destruct (derived_path_extends_prefix two_paths 1 Obj.[KStr "a"] eq_refl)
    as [_ Hattr].
  destruct (Hattr "b") as (q1 & st1 & d1 & Hg1 & Hq1 & Hd1 & _ & Hkeep1).
  destruct (derived_path_extends_prefix st1 1 Obj.[KStr "a"]
              (Hkeep1 1%nat Obj.[KStr "a"] eq_refl)) as [Hitem _].
  destruct (Hitem (KInt 0)) as (q2 & st2 & d2 & Hg2 & Hq2 & Hd2 & _ & Hkeep2).
  exists q1, st1, q2, st2. repeat split.
  - exact Hg1.
  - exact Hg2.
  - rewrite (Hkeep2 _ _ (Hkeep1 1%nat Obj.[KStr "a"] eq_refl)). reflexivity.
  - rewrite (Hkeep2 _ _ Hq1). simpl. rewrite Hd1. reflexivity.
  - rewrite Hq2. simpl. rewrite Hd2. reflexivity.
Defined.

(** ** Table fields *)

(** What [__init__] makes of each kind of key. *)
Lemma init_getter kw :
  match from_option id (KeyValue VNone) (TableField.kw_key kw) with
  | KeyValue VNone =>
      exists tf, TableField.__init__ kw = Ok tf /\
                 TableField.getter tf = ObjType.__call__ Obj
  | KeyValue (VStr s) =>
      exists tf, TableField.__init__ kw = Ok tf /\
                 TableField.getter tf = ObjType.__call__ Obj.[KStr s]
  | KeyPath p =>
      exists tf, TableField.__init__ kw = Ok tf /\
                 TableField.getter tf = ObjType.__call__ p
  | KeyGetter g =>
      exists tf, TableField.__init__ kw = Ok tf /\ TableField.getter tf = g
  | KeyValue v => TableField.__init__ kw = Raise (TableField.invalid_key_type v)
  end.
Proof.
  unfold TableField.__init__.
  destruct (from_option id (KeyValue VNone) (TableField.kw_key kw))
    as [p|g|[]]; simpl; eauto.
Qed.

(** The lookups of a path never raise the error of an invalid key type. *)
Lemma getitem_not_invalid_key_type obj k v :
  py_getitem obj k <> Raise (TableField.invalid_key_type v).
Proof.
  unfold TableField.invalid_key_type.
  destruct obj, k; simpl; try discriminate;
    repeat match goal with
           | |- context [match ?x with _ => _ end] => destruct x
           end; discriminate.
Qed.

Lemma walk_not_invalid_key_type self default accs obj v :
  ObjType.walk self default accs obj <> Raise (TableField.invalid_key_type v).
Proof.
  revert obj. induction accs as [|[t k] accs IH]; intros obj; [discriminate|].
  rewrite walk_cons.
  destruct (lookup_step (t, k) obj) as [o|e] eqn:Hl.
  - rewrite Ok_bind. unfold missing_check.
    destruct (is_MISSING o); [destruct (is_NO_DEFAULT default)|];
      rewrite ?Ok_bind, ?Raise_bind; try apply IH. discriminate.
  - rewrite Raise_bind. intros He. injection He as ->.
    unfold lookup_step in Hl. destruct (decide (t = "key")).
    + pose proof (getitem_not_invalid_key_type obj k v) as Hg.
      destruct (py_getitem obj k) as [?|e']; [discriminate|].
      destruct e' as [[] msg]; simpl in Hl; try discriminate;
        injection Hl as Hl; apply Hg; rewrite Hl; reflexivity.
    + destruct k; discriminate.
Qed.

Lemma mapM_Raise {A B : Type} (f : A -> result B) (l : list A) e :
  mapM f l = Raise e -> exists x, x ∈ l /\ f x = Raise e.
Proof.
  induction l as [|x l IH]; simpl; [discriminate|].
  destruct (f x) as [y|e'] eqn:Hx.
  - rewrite Ok_bind. destruct (mapM f l) as [k|e'']; [discriminate|].
    rewrite Raise_bind. intros H. destruct (IH H) as (x' & Hin & Hx').
    exists x'. split; [right; exact Hin | exact Hx'].
  - rewrite Raise_bind. intros H. injection H as ->.
    exists x. split; [left | exact Hx].
Qed.

(** The exceptions of [_build_field_content] are those of the getter, of
    the reducers and of the formatter: the method raises none of its own. *)
Lemma build_field_content_Raise tf items table_kwargs apply_style e :
  _build_field_content tf items table_kwargs apply_style = Raise e ->
  (exists obj, TableField.getter tf obj (TableField.default tf) = Raise e) \/
  (exists rx values,
     (TableField.header tf = Callable rx \/ TableField.footer tf = Callable rx) /\
     rx values = Raise e) \/
  (exists f v, TableField.formatter tf = Some f /\ f v = Raise e).
Proof.
  assert (Hrf : forall rx values,
             TableField._reduce_and_format tf rx values = Raise e ->
             (exists r vs, rx = Callable r /\ r vs = Raise e) \/
             (exists f v, TableField.formatter tf = Some f /\ f v = Raise e)).
  { intros rx values. unfold TableField._reduce_and_format.
    destruct rx as [r|r]; [discriminate|].
    destruct (r values) as [v|e'] eqn:Hr.
    - rewrite Ok_bind. destruct (TableField.formatter tf) as [f|] eqn:Hf;
        [|discriminate].
      destruct (is_None v); [discriminate|]. simpl. eauto 6.
    - rewrite Raise_bind. intros H. injection H as ->. eauto 6. }
  unfold _build_field_content.
  destruct (mapM (TableField._get_field_value tf) items) as [raw|e1] eqn:Hraw.
  - rewrite Ok_bind. unfold TableField._get_header at 1.
    destruct (TableField._reduce_and_format tf (TableField.header tf) raw)
      as [h|e2] eqn:Hh.
    + rewrite !Ok_bind. unfold TableField._get_footer at 1.
      destruct (TableField._reduce_and_format tf (TableField.footer tf) raw)
        as [f|e3] eqn:Hf.
      * rewrite !Ok_bind.
        match goal with
        | |- mapM ?g raw ≫= _ = _ -> _ => destruct (mapM g raw) as [vs|e4] eqn:Hvs
        end; [discriminate|].
        rewrite Raise_bind. intros H. injection H as ->.
        apply mapM_Raise in Hvs as (v & _ & Hv). right. right.
        unfold TableField._format_field_value in Hv.
        destruct (TableField.formatter tf) as [fm|] eqn:Hfm; [|discriminate].
        destruct (negb (is_None (if is_None v then VStr "" else v)));
          [|discriminate].
        destruct (fm (if is_None v then VStr "" else v)) as [r|e'] eqn:Hr;
          [discriminate|].
        rewrite Raise_bind in Hv. injection Hv as ->. eauto.
      * rewrite !Raise_bind. intros H. injection H as ->.
        destruct (Hrf _ _ Hf) as [(r & vs & Hr & Hrv)|Hfm]; [|auto].
        right. left. exists r, vs. auto.
    + rewrite !Raise_bind. intros H. injection H as ->.
      destruct (Hrf _ _ Hh) as [(r & vs & Hr & Hrv)|Hfm]; [|auto].
      right. left. exists r, vs. auto.
  - rewrite Raise_bind. intros H. injection H as ->.
    apply mapM_Raise in Hraw as (obj & _ & Hobj). left. exists obj.
    unfold TableField._get_field_value in Hobj.
    destruct (TableField.getter tf obj (TableField.default tf));
      [discriminate | exact Hobj].
Qed.

(** C7: a key that is neither [None], nor callable, nor a [str] makes the
    declaration itself fail with the invalid-key-type [TypeError]; with any
    other key the declaration succeeds, and building the content of the
    declared field raises that error only if code supplied by the caller (a
    key function, a transform, a reducer or a formatter) raises it. *)
Theorem key_type_checked_at_declaration (kw : TableField.kwargs) :
  let key := from_option id (KeyValue VNone) (TableField.kw_key kw) in
  (forall v, key = KeyValue v -> v <> VNone -> (forall s, v <> VStr s) ->
     TableField.__init__ kw = Raise (TableField.invalid_key_type v)) /\
  ((key = KeyValue VNone \/ (exists s, key = KeyValue (VStr s)) \/
    (exists p, key = KeyPath p) \/ (exists g, key = KeyGetter g)) ->
   exists tf,
     TableField.__init__ kw = Ok tf /\
     forall items table_kwargs apply_style v,
       _build_field_content tf items table_kwargs apply_style
       = Raise (TableField.invalid_key_type v) ->
       raised_by_caller key tf (TableField.invalid_key_type v)).
Proof.
  intros key. pose proof (init_getter kw) as Hinit. fold key in Hinit.
  assert (Hpath : forall (tf : TableField.t) p obj v,
             TableField.getter tf = ObjType.__call__ p ->
             TableField.getter tf obj (TableField.default tf)
             = Raise (TableField.invalid_key_type v) ->
             exists o, ObjType.apply_transforms (ObjType.__transforms__ p) o
                       = Raise (TableField.invalid_key_type v)).
  { intros tf p obj v Hg H. rewrite Hg in H. unfold ObjType.__call__ in H.
    pose proof (walk_not_invalid_key_type p (TableField.default tf)
                  (ObjType.__accessors__ p) obj v) as Hw.
    destruct (ObjType.walk p (TableField.default tf)
                (ObjType.__accessors__ p) obj) as [o|e]; [|contradiction].
    exists o. exact H. }
  split.
  - intros v Hk Hn Hs. rewrite Hk in Hinit.
    destruct v; try exact Hinit; [contradiction | destruct (Hs s eq_refl)].
  - intros [Hk | [[s Hk] | [[p Hk] | [g Hk]]]]; rewrite Hk in Hinit;
      destruct Hinit as (tf & Htf & Hg); exists tf; (split; [exact Htf|]);
      intros items table_kwargs apply_style v H;
      apply build_field_content_Raise in H as [[obj H] | H];
      try (right; right; exact H).
    + destruct (Hpath tf Obj obj v Hg H) as [o Ho]. discriminate Ho.
    + destruct (Hpath tf Obj.[KStr s] obj v Hg H) as [o Ho]. discriminate Ho.
    + destruct (Hpath tf p obj v Hg H) as [o Ho]. left. eauto.
    + right. left. exists g, obj. rewrite Hg in H. auto.
Qed.

(** [TableField(key=42)] raises at the declaration. *)
Lemma key_type_checked_at_declaration_witness :
  TableField.__init__ (key_kwargs (KeyValue (VInt 42)))
  = Raise (Exc TypeError "Invalid key type: <class 'int'>").
Proof.
  destruct (key_type_checked_at_declaration (key_kwargs (KeyValue (VInt 42))))
    as [Hbad _].
  apply (Hbad (VInt 42)).
  - reflexivity.
  - discriminate.
  - discriminate.
Defined.

(** A value that is not [None] goes through the formatter of the field,
    and is the cell as it is when the field has none. *)
Lemma format_value_not_None self v apply_style default_style :
  is_None v = false ->
  TableField._format_field_value self v apply_style default_style
  = (r ← apply_formatter self v;
     Ok (styled apply_style (py_or (TableField.style self) default_style) r)).
Proof.
  intros Hv. unfold TableField._format_field_value, apply_formatter.
  rewrite Hv. cbv zeta. rewrite Hv. simpl negb. cbv iota.
  destruct (TableField.formatter self) as [f|]; reflexivity.
Qed.

(** [None] is replaced by the empty string before the test on [None] that
    guards the formatter, so the formatter is applied to the empty string. *)
Lemma format_None self f apply_style default_style :
  TableField.formatter self = Some f ->
  TableField._format_field_value self VNone apply_style default_style
  = (r ← f (VStr "");
     Ok (styled apply_style (py_or (TableField.style self) default_style) r)).
Proof.
  intros Hf. unfold TableField._format_field_value. rewrite Hf. reflexivity.
Qed.

(** A formatter left out of the declaration is [str]. *)
Lemma default_formatter_is_str kw tf :
  TableField.kw_formatter kw = None ->
  TableField.__init__ kw = Ok tf ->
  TableField.formatter tf = Some str.
Proof.
  intros Hkw H. unfold TableField.__init__ in H.
  apply bind_Ok in H as (g & _ & H). injection H as <-. simpl.
  rewrite Hkw. reflexivity.
Qed.

(** C6: a field declared with the formatter [lambda v: f"[{v}]"] formats
    [None] as ["[]"]: the formatter is called, on the empty string, and the
    cell is not empty.  The same test on [None] in [_reduce_and_format] does
    keep the formatter away from a reduction that is [None]. *)
Theorem format_none_reaches_formatter :
  exists tf,
    TableField.__init__ (formatter_kwargs (Some bracket)) = Ok tf /\
    TableField._format_field_value tf VNone false (VStr "")
    = Ok (RValue (VStr "[]")) /\
    TableField._reduce_and_format tf (Callable no_total) [] = Ok (RValue VNone).
Proof. eexists. repeat split; reflexivity. Qed.

Lemma no_total_field_declared :
  TableField.__init__
    (field_kwargs "Quantity" "quantity" (Some (Callable no_total)))
  = Ok no_total_field.
Proof. reflexivity. Qed.

(** C1, as stated, fails: the footer [lambda values: None] of a field with
    the default formatter [str] is [None], not [str(None)]. *)
Lemma reduced_None_is_not_formatted :
  ~ (forall (self : TableField.t) (values : list value) (rx : Reducer)
            (default_style : value),
        TableField.footer self = Callable rx ->
        TableField._get_footer self values false default_style
        = (v ← rx values; apply_formatter self v)).
Proof.
  intros H.
  specialize (H no_total_field [VInt 1; VInt 2] no_total (VStr "") eq_refl).
  vm_compute in H. discriminate H.
Qed.

Lemma reduce_and_format_cases self rx values :
  TableField._reduce_and_format self rx values
  = match rx with
    | Literal r => Ok r
    | Callable rx =>
        v ← rx values;
        if is_None v then Ok (RValue v) else apply_formatter self v
    end.
Proof.
  unfold TableField._reduce_and_format, apply_formatter.
  destruct rx as [r|rx]; [reflexivity|].
  destruct (rx values) as [v|e]; [|reflexivity]. rewrite !Ok_bind.
  destruct (TableField.formatter self), (is_None v); reflexivity.
Qed.

Lemma build_field_content_Ok tf items table_kwargs apply_style c :
  _build_field_content tf items table_kwargs apply_style = Ok c ->
  exists raw,
    mapM (TableField._get_field_value tf) items = Ok raw /\
    TableField._get_header tf raw apply_style
      (kwargs_get table_kwargs "header_style" (VStr ""))
    = Ok (TableFieldContent.header c) /\
    TableField._get_footer tf raw apply_style
      (kwargs_get table_kwargs "footer_style" (VStr ""))
    = Ok (TableFieldContent.footer c) /\
    mapM (fun v => TableField._format_field_value tf v apply_style
                     (kwargs_get table_kwargs "style" (VStr ""))) raw
    = Ok (TableFieldContent.values c).
Proof.
  unfold _build_field_content. intros H.
  apply bind_Ok in H as (raw & Hraw & H).
  apply bind_Ok in H as (h & Hh & H).
  apply bind_Ok in H as (f & Hf & H).
  apply bind_Ok in H as (vs & Hvs & H).
  injection H as <-. exists raw. simpl. auto.
Qed.

(** C1, amended: a literal footer or header is returned as it is, the
    formatter not applied; a reducer is applied to the full list of
    extracted values, and its result goes through the formatter unless it is
    [None] (or the field has no formatter), in which case it is returned as
    it is.  When style application is requested the result is wrapped in the
    style annotation.  The list is the one of the values extracted from the
    records, before they are formatted. *)
Theorem header_footer_literal_or_reduced (self : TableField.t)
    (values : list value) (default_style : value) :
  (forall r, TableField.footer self = Literal r ->
     TableField._get_footer self values false default_style = Ok r) /\
  (forall rx, TableField.footer self = Callable rx ->
     TableField._get_footer self values false default_style
     = (v ← rx values;
        if is_None v then Ok (RValue v) else apply_formatter self v)) /\
  (forall r, TableField.header self = Literal r ->
     TableField._get_header self values false default_style = Ok r) /\
  (forall rx, TableField.header self = Callable rx ->
     TableField._get_header self values false default_style
     = (v ← rx values;
        if is_None v then Ok (RValue v) else apply_formatter self v)) /\
  TableField._get_footer self values true default_style
  = (r ← TableField._get_footer self values false default_style;
     Ok (TableField._apply_style r
           (py_or (TableField.footer_style self) default_style))) /\
  TableField._get_header self values true default_style
  = (r ← TableField._get_header self values false default_style;
     Ok (TableField._apply_style r
           (py_or (TableField.header_style self) default_style))) /\
  (forall items table_kwargs apply_style c,
     _build_field_content self items table_kwargs apply_style = Ok c ->
     mapM (TableField._get_field_value self) items = Ok values ->
     TableField._get_header self values apply_style
       (kwargs_get table_kwargs "header_style" (VStr ""))
     = Ok (TableFieldContent.header c) /\
     TableField._get_footer self values apply_style
       (kwargs_get table_kwargs "footer_style" (VStr ""))
     = Ok (TableFieldContent.footer c)).
Proof.
  unfold TableField._get_footer, TableField._get_header.
  rewrite !reduce_and_format_cases.
  repeat split.
  - intros r ->. reflexivity.
  - intros rx ->. destruct (rx values) as [v|e]; [|reflexivity].
    rewrite !Ok_bind.
    destruct (if is_None v then Ok (RValue v) else apply_formatter self v);
      reflexivity.
  - intros r ->. reflexivity.
  - intros rx ->. destruct (rx values) as [v|e]; [|reflexivity].
    rewrite !Ok_bind.
    destruct (if is_None v then Ok (RValue v) else apply_formatter self v);
      reflexivity.
  - destruct (TableField.footer self) as [r|rx]; [reflexivity|].
    destruct (rx values) as [v|e]; [|reflexivity]. rewrite !Ok_bind.
    destruct (if is_None v then Ok (RValue v) else apply_formatter self v);
      reflexivity.
  - destruct (TableField.header self) as [r|rx]; [reflexivity|].
    destruct (rx values) as [v|e]; [|reflexivity]. rewrite !Ok_bind.
    destruct (if is_None v then Ok (RValue v) else apply_formatter self v);
      reflexivity.
  - apply build_field_content_Ok in H as (raw & Hraw & Hh & Hf & _).
    rewrite Hraw in H0. injection H0 as <-.
    unfold TableField._get_header in Hh. rewrite reduce_and_format_cases in Hh.
    exact Hh.
  - apply build_field_content_Ok in H as (raw & Hraw & Hh & Hf & _).
    rewrite Hraw in H0. injection H0 as <-.
    unfold TableField._get_footer in Hf. rewrite reduce_and_format_cases in Hf.
    exact Hf.
Qed.

Lemma header_footer_literal_or_reduced_witness :
  exists fields qty price,
    cart_fields = Ok fields /\
    fields !! 1%nat = Some ("qty", qty) /\
    fields !! 2%nat = Some ("price", price) /\
    TableField._get_footer qty [VInt 1; VInt 2] false (VStr "")
    = Ok (RValue (VStr "3")) /\
    TableField._get_footer price [VInt 10; VInt 20] false (VStr "")
    = Ok (RValue (VStr "-")).
Proof.
  eexists. eexists. eexists.
  split; [reflexivity|]. split; [reflexivity|]. split; [reflexivity|].
  split.
  - match goal with
    | |- TableField._get_footer ?tf ?vs _ ?ds = _ =>
        destruct (header_footer_literal_or_reduced tf vs ds)
          as (_ & Hred & _)
    end.
    rewrite (Hred py_sum eq_refl). reflexivity.
  - match goal with
    | |- TableField._get_footer ?tf ?vs _ ?ds = _ =>
        destruct (header_footer_literal_or_reduced tf vs ds)
          as (Hlit & _)
    end.
    apply Hlit. reflexivity.
Defined.

(** ** The transposed build *)

Lemma range_length n : length (range n) = Z.to_nat n.
Proof. unfold range. rewrite length_fmap, length_seq. reflexivity. Qed.

Lemma build_field_content_length tf items table_kwargs apply_style c :
  _build_field_content tf items table_kwargs apply_style = Ok c ->
  length (TableFieldContent.values c) = length items.
Proof.
  intros H. apply build_field_content_Ok in H as (raw & Hraw & _ & _ & Hvs).
  apply mapM_length in Hraw, Hvs. congruence.
Qed.

(** C4: with boolean show-header and show-footer flags, the transposed
    build adds one row per field, in declaration order; each row is the
    field's values, one per record, with the header cell in front iff
    show-header is set and the footer cell at the end iff show-footer is set;
    the table has [len(records) + show_header + show_footer] columns, as many
    as each row has cells; and both flags are off in the options the table is
    created with, the other options being handed on unchanged. *)
Theorem transposed_shape {K : Type} (self : @TableBuilder K)
    (values : list value) (table_kwargs : TableOptions)
    (show_header show_footer : bool) (t : Table.t) :
  kwargs_get table_kwargs "show_header" (VBool true) = VBool show_header ->
  kwargs_get table_kwargs "show_footer" (VBool false) = VBool show_footer ->
  _build_table_transposed self values table_kwargs = Ok t ->
  let n_columns :=
    (length values + Nat.b2n show_header + Nat.b2n show_footer)%nat in
  exists rows,
    Table.calls t = add_row <$> rows /\
    Forall2
      (fun tf row =>
         exists c,
           _build_field_content tf values (Table.kwargs t) true = Ok c /\
           length (TableFieldContent.values c) = length values /\
           row = (if show_header
                  then [or_empty (TableFieldContent.header c)] else [])
                 ++ TableFieldContent.values c
                 ++ (if show_footer
                     then [or_empty (TableFieldContent.footer c)] else []))
      (_table_fields self).*2 rows /\
    Forall (fun row => length row = n_columns) rows /\
    length (Table.columns t) = n_columns /\
    Table.kwargs t !! "show_header" = Some (VBool false) /\
    Table.kwargs t !! "show_footer" = Some (VBool false) /\
    forall opt, opt <> "show_header" -> opt <> "show_footer" ->
                Table.kwargs t !! opt = table_kwargs !! opt.
Proof.
  intros Hh Hf Hbuild n_columns. unfold _build_table_transposed in Hbuild.
  assert (Hf' : kwargs_get (delete "show_header" table_kwargs) "show_footer"
                  (VBool false) = VBool show_footer).
  { unfold kwargs_get in *. rewrite lookup_delete_ne by discriminate.
    exact Hf. }
  rewrite Hh, Hf' in Hbuild. simpl int_add in Hbuild.
  rewrite !Ok_bind in Hbuild.
  apply bind_Ok in Hbuild as (rows & Hrows & Hbuild).
  injection Hbuild as <-. simpl.
  apply mapM_Ok in Hrows.
  assert (Hshape :
    Forall2
      (fun tf row =>
         exists c,
           _build_field_content tf values
             (<["show_footer":=VBool false]>
                (<["show_header":=VBool false]>
                   (delete "show_footer" (delete "show_header" table_kwargs))))
             true = Ok c /\
           length (TableFieldContent.values c) = length values /\
           row = (if show_header
                  then [or_empty (TableFieldContent.header c)] else [])
                 ++ TableFieldContent.values c
                 ++ (if show_footer
                     then [or_empty (TableFieldContent.footer c)] else []))
      (_table_fields self).*2 rows).
  { eapply Forall2_impl; [exact Hrows|]. intros tf row Hrow. simpl in Hrow.
    apply bind_Ok in Hrow as (c & Hc & Hrow). injection Hrow as <-.
    exists c. split; [exact Hc|]. split; [|reflexivity].
    eapply build_field_content_length, Hc. }
  exists rows. split; [reflexivity|]. split; [exact Hshape|].
  split; [|split; [|split; [|split]]].
  - clear Hrows. induction Hshape as [|tf row fs rs (c & _ & Hlen & ->) _ IH];
      constructor; [|exact IH].
    rewrite !length_app, Hlen. unfold n_columns.
    destruct show_header, show_footer; simpl; lia.
  - rewrite length_fmap, range_length. unfold n_columns.
    destruct show_header, show_footer; simpl; lia.
  - rewrite lookup_insert_ne by discriminate. apply lookup_insert_eq.
  - apply lookup_insert_eq.
  - intros opt H1 H2.
    rewrite !lookup_insert_ne, !lookup_delete_ne by congruence. reflexivity.
Qed.

(** The cart, transposed, header and footer shown: three rows of four
    cells, four columns, both flags off in the options of the table. *)
Lemma transposed_shape_witness :
  exists t rows,
    _build_table_transposed cart_builder cart show_both = Ok t /\
    Table.calls t = add_row <$> rows /\
    length rows = 3%nat /\
    Forall (fun row => length row = 4%nat) rows /\
    length (Table.columns t) = 4%nat /\
    Table.kwargs t !! "show_header" = Some (VBool false) /\
    Table.kwargs t !! "show_footer" = Some (VBool false).
Proof.
  destruct (_build_table_transposed cart_builder cart show_both) as [t|e]
    eqn:Ht; [|vm_compute in Ht; discriminate Ht].
  destruct (transposed_shape cart_builder cart show_both true true t)
    as (rows & Hcalls & Hrows & Hlen & Hcols & Hh & Hf & _).
  - reflexivity.
  - reflexivity.
  - exact Ht.
  - exists t, rows. apply Forall2_length in Hrows. simpl in Hrows.
    repeat split; auto.
Defined.

Lemma mapM_total {A B : Type} (f : A -> result B) (l : list A) :
  Forall (fun x => exists y, f x = Ok y) l -> exists l', mapM f l = Ok l'.
Proof.
  induction 1 as [|x l [y Hy] _ [l' IH]].
  - exists []. reflexivity.
  - exists (y :: l'). simpl. rewrite Hy, Ok_bind, IH. reflexivity.
Qed.

(** The library's part of the transposed build goes through as soon as the
    content of every field can be built: what is left to fail is rich's
    [Table], which is taken to accept its arguments. *)
Lemma transposed_build_succeeds {K : Type} (self : @TableBuilder K)
    (values : list value) (table_kwargs : TableOptions)
    (show_header show_footer : bool) :
  kwargs_get table_kwargs "show_header" (VBool true) = VBool show_header ->
  kwargs_get table_kwargs "show_footer" (VBool false) = VBool show_footer ->
  Forall
    (fun tf =>
       exists c,
         _build_field_content tf values
           (<["show_footer":=VBool false]>
              (<["show_header":=VBool false]>
                 (delete "show_footer" (delete "show_header" table_kwargs))))
           true = Ok c)
    (_table_fields self).*2 ->
  exists t, _build_table_transposed self values table_kwargs = Ok t.
Proof.
  intros Hh Hf Hfields. unfold _build_table_transposed.
  assert (Hf' : kwargs_get (delete "show_header" table_kwargs) "show_footer"
                  (VBool false) = VBool show_footer).
  { unfold kwargs_get in *. rewrite lookup_delete_ne by discriminate.
    exact Hf. }
  rewrite Hh, Hf'. simpl int_add. rewrite !Ok_bind.
  match goal with
  | |- exists t, mapM ?f ?l ≫= _ = _ => destruct (mapM_total f l) as [rows ->]
  end.
  - eapply Forall_impl; [exact Hfields|]. intros tf [c Hc]. simpl.
    rewrite Hc, Ok_bind. eauto.
  - rewrite Ok_bind. eauto.
Qed.

(** ** The normal build *)

(** *** [sorted] is a stable sort *)

Section SortedProperties.
Context {K A : Type} (lt : K -> K -> bool).
Hypothesis lt_asym : forall a b, lt a b = true -> lt b a = false.
Hypothesis lt_negtrans :
  forall a b c, lt a b = false -> lt b c = false -> lt a c = false.

Lemma insert_sorted_perm (x : K * A) l : insert_sorted lt x l ≡ₚ x :: l.
Proof.
  induction l as [|y l IH]; simpl; [reflexivity|].
  destruct (lt y.1 x.1); [|reflexivity].
  rewrite IH. apply Permutation_swap.
Qed.

Lemma stable_sort_perm (l : list (K * A)) : stable_sort lt l ≡ₚ l.
Proof.
  induction l as [|x l IH]; simpl; [reflexivity|].
  rewrite insert_sorted_perm, IH. reflexivity.
Qed.

Lemma insert_sorted_sorted (x : K * A) l :
  StronglySorted (key_le lt) l ->
  StronglySorted (key_le lt) (insert_sorted lt x l).
Proof.
  induction 1 as [|y l Hs IH Hy]; simpl.
  - repeat constructor.
  - destruct (lt y.1 x.1) eqn:Hyx.
    + constructor; [exact IH|].
      rewrite insert_sorted_perm. constructor; [|exact Hy].
      unfold key_le. apply lt_asym, Hyx.
    + constructor; [constructor; assumption|].
      constructor; [exact Hyx|].
      eapply Forall_impl; [exact Hy|]. intros z Hz. unfold key_le in *.
      eapply lt_negtrans; eassumption.
Qed.

Lemma stable_sort_sorted (l : list (K * A)) :
  StronglySorted (key_le lt) (stable_sort lt l).
Proof.
  induction l as [|x l IH]; simpl; [constructor|].
  apply insert_sorted_sorted, IH.
Qed.

Lemma insert_sorted_stable k (x : K * A) l :
  List.filter (fun p => tie lt k p.1) (insert_sorted lt x l)
  = List.filter (fun p => tie lt k p.1) (x :: l).
Proof.
  induction l as [|y l IH]; [reflexivity|].
  simpl insert_sorted. destruct (lt y.1 x.1) eqn:Hyx; [|reflexivity].
  cbn [List.filter]. rewrite IH. cbn [List.filter].
  destruct (tie lt k y.1) eqn:Hy, (tie lt k x.1) eqn:Hx; try reflexivity.
  exfalso. unfold tie in Hy, Hx.
  apply andb_true_iff in Hy as [_ Hy], Hx as [Hx _].
  apply negb_true_iff in Hy, Hx.
  rewrite (lt_negtrans _ _ _ Hy Hx) in Hyx. discriminate.
Qed.

Lemma stable_sort_stable k (l : list (K * A)) :
  List.filter (fun p => tie lt k p.1) (stable_sort lt l)
  = List.filter (fun p => tie lt k p.1) l.
Proof.
  induction l as [|x l IH]; [reflexivity|].
  simpl stable_sort. rewrite insert_sorted_stable. simpl. rewrite IH.
  reflexivity.
Qed.
End SortedProperties.

(** *** Columns into rows *)

Lemma append_values_Ok rows values :
  length rows = length values ->
  append_values rows values
  = Ok (zip_with (fun row val => row ++ [val]) rows values).
Proof.
  revert rows. induction values as [|val values IH]; intros [|row rows] Hlen;
    try discriminate; [reflexivity|].
  simpl. rewrite IH by (simpl in Hlen; lia). reflexivity.
Qed.

Lemma zip_with_app_nils {A B : Type} (rows : list (list A)) (items : list B) :
  length rows = length items ->
  zip_with app rows ((fun _ => []) <$> items) = rows.
Proof.
  revert items. induction rows as [|row rows IH]; intros [|item items] Hlen;
    try discriminate; [reflexivity|].
  simpl. rewrite app_nil_r, IH by (simpl in Hlen; lia). reflexivity.
Qed.

Lemma zip_with_snoc_app {A : Type} (rows : list (list A)) vals news :
  zip_with app (zip_with (fun row val => row ++ [val]) rows vals) news
  = zip_with app rows (zip_with cons vals news).
Proof.
  revert vals news.
  induction rows as [|row rows IH]; intros [|val vals] [|new news];
    try reflexivity.
  simpl. rewrite IH, <- app_assoc. reflexivity.
Qed.

(** The cells of a column are, record by record, the value extracted and
    then formatted. *)
Lemma column_cells tf table_kwargs items c :
  _build_field_content tf items table_kwargs false = Ok c ->
  Forall2 (fun item cell => row_of [tf] table_kwargs item = Ok [cell])
    items (TableFieldContent.values c).
Proof.
  intros H. apply build_field_content_Ok in H as (raw & Hraw & _ & _ & Hvals).
  apply mapM_Ok in Hraw, Hvals. revert Hvals.
  generalize (TableFieldContent.values c). clear c.
  induction Hraw as [|item v items raw Hv _ IH]; intros cells Hcells;
    inversion Hcells as [|? cell ? cells' Hcell Hrest]; subst; constructor.
  - unfold row_of. simpl. rewrite Hv, Ok_bind, Hcell. reflexivity.
  - apply IH, Hrest.
Qed.

Lemma row_of_cons tf fields table_kwargs item cell row :
  row_of [tf] table_kwargs item = Ok [cell] ->
  row_of fields table_kwargs item = Ok row ->
  row_of (tf :: fields) table_kwargs item = Ok (cell :: row).
Proof.
  unfold row_of. simpl. intros Hcell Hrow.
  destruct (TableField._get_field_value tf item ≫= _) as [cell'|e];
    [|discriminate].
  injection Hcell as ->. rewrite Ok_bind, Hrow. reflexivity.
Qed.

(** After the loop over the fields, row [i] holds the cells of record [i],
    one per field, in the order of the fields. *)
Lemma build_columns_rows fields items table_kwargs columns rows columns' rows' :
  length rows = length items ->
  build_columns fields items table_kwargs columns rows = Ok (columns', rows') ->
  exists news,
    Forall2 (fun item row => row_of fields table_kwargs item = Ok row)
      items news /\
    rows' = zip_with app rows news /\
    length columns' = (length columns + length fields)%nat.
Proof.
  revert columns rows. induction fields as [|tf fields IH];
    intros columns rows Hlen H.
  - simpl in H. injection H as <- <-. exists ((fun _ => []) <$> items).
    split; [|split].
    + apply Forall2_fmap_r, Forall_Forall2_diag, Forall_forall.
      intros; reflexivity.
    + symmetry. apply zip_with_app_nils, Hlen.
    + simpl. lia.
  - simpl in H. apply bind_Ok in H as (c & Hc & H).
    apply bind_Ok in H as (rows1 & Hrows1 & H).
    pose proof (column_cells _ _ _ _ Hc) as Hcells.
    pose proof (Forall2_length _ _ _ Hcells) as Hclen.
    rewrite append_values_Ok in Hrows1 by lia. injection Hrows1 as <-.
    apply IH in H as (news & Hnews & -> & Hcols);
      [|rewrite length_zip_with; lia].
    exists (zip_with cons (TableFieldContent.values c) news).
    split; [|split].
    + clear -Hcells Hnews. revert news Hnews.
      induction Hcells as [|item cell items cells Hcell _ IHc];
        intros news Hnews; inversion Hnews as [|? row ? news' Hrow Hrest];
        subst; constructor.
      * apply row_of_cons; assumption.
      * apply IHc, Hrest.
    + apply zip_with_snoc_app.
    + rewrite Hcols, length_app. simpl. lia.
Qed.

(** *** Rows and section breaks *)

Lemma zip_with_app_replicate_nil {A : Type} (news : list (list A)) :
  zip_with app (replicate (length news) []) news = news.
Proof. induction news as [|row news IH]; simpl; [|rewrite IH]; reflexivity. Qed.

Lemma zip_Some_markers {K R : Type} (ks : list K) (rows : list R) :
  zip (Some <$> ks) rows = (fun kr => (Some kr.1, kr.2)) <$> zip ks rows.
Proof.
  revert rows. induction ks as [|k ks IH]; intros [|row rows]; try reflexivity.
  simpl. rewrite IH. reflexivity.
Qed.

Section NormalBuild.
Context {K : Type} (lt ne : K -> K -> bool).
Hypothesis lt_asym : forall a b, lt a b = true -> lt b a = false.
Hypothesis lt_negtrans :
  forall a b c, lt a b = false -> lt b c = false -> lt a c = false.
Hypothesis ne_refl : forall a, ne a a = false.
Hypothesis ne_sym : forall a b, ne a b = false -> ne b a = false.
Hypothesis ne_trans :
  forall a b c, ne a b = false -> ne b c = false -> ne a c = false.

(** Without a section function every marker is the same [True]: no break. *)
Lemma add_rows_unsectioned (rows : list (list renderable)) :
  add_rows ne None (zip (replicate (length rows) None) rows) = add_row <$> rows.
Proof. induction rows as [|row rows IH]; simpl; [|rewrite IH]; reflexivity. Qed.

(** The marker the loop compares with is the first one of the section in
    progress; it is equal to the marker of the row before. *)
Lemma add_rows_calls_after current previous (krs : list (K * list renderable)) :
  ne previous current = false ->
  add_rows ne (Some current) ((fun kr => (Some kr.1, kr.2)) <$> krs)
  = calls_after ne previous krs.
Proof.
  revert current previous.
  induction krs as [|[k row] krs IH]; intros current previous Hinv;
    [reflexivity|].
  rewrite fmap_cons. cbn [add_rows marker_ne calls_after fst snd].
  destruct (ne k current) eqn:Hkc.
  - assert (ne k previous = true) as ->.
    { destruct (ne k previous) eqn:Hkp; [reflexivity|].
      rewrite (ne_trans _ _ _ Hkp Hinv) in Hkc. discriminate. }
    rewrite (IH k k) by apply ne_refl. reflexivity.
  - rewrite (ne_trans _ _ _ Hkc (ne_sym _ _ Hinv)).
    rewrite (IH current k) by exact Hkc. reflexivity.
Qed.

(** The markers computed after sorting are the keys the sort went by. *)
Lemma sorted_markers (f : value -> result K) items keys :
  mapM f items = Ok keys ->
  mapM f (stable_sort lt (zip keys items)).*2
  = Ok (stable_sort lt (zip keys items)).*1.
Proof.
  intros Hkeys. apply mapM_Ok in Hkeys.
  assert (Hall : Forall (fun p => f p.2 = Ok p.1) (zip keys items)).
  { clear -Hkeys. induction Hkeys; simpl; constructor; assumption. }
  rewrite <- (stable_sort_perm lt (zip keys items)) in Hall.
  apply mapM_Ok. induction Hall; simpl; constructor; assumption.
Qed.

(** C5: in a normal build that returns a table, with no section function
    the rows are those of the records in input order and no section break
    is made; with a section function the records are sorted by section key,
    records with tying keys keeping their input order, the rows are those of
    the sorted records, and a section break is made in front of a row exactly
    when its key differs from that of the row before, so never before the
    first row. *)
Theorem normal_rows_and_sections (self : @TableBuilder K)
    (items : list value) (table_kwargs : TableOptions) (t : Table.t) :
  _build_table_normal lt ne self items table_kwargs = Ok t ->
  let fields := (_table_fields self).*2 in
  match section_by self with
  | None =>
      exists rows,
        Forall2 (fun item row => row_of fields table_kwargs item = Ok row)
          items rows /\
        Table.calls t = add_row <$> rows
  | Some f =>
      exists keys rows,
        mapM f items = Ok keys /\
        let by_key := stable_sort lt (zip keys items) in
        by_key ≡ₚ zip keys items /\
        StronglySorted (key_le lt) by_key /\
        (forall k, List.filter (fun p => tie lt k p.1) by_key
                   = List.filter (fun p => tie lt k p.1) (zip keys items)) /\
        Forall2 (fun item row => row_of fields table_kwargs item = Ok row)
          by_key.*2 rows /\
        Table.calls t = sectioned_calls ne (zip by_key.*1 rows)
  end.
Proof.
  intros H fields. unfold _build_table_normal in H.
  destruct (section_by self) as [f|].
  - apply bind_Ok in H as ([items' markers] & Hsort & H).
    apply bind_Ok in Hsort as (items'' & Hsorted & Hsort).
    apply bind_Ok in Hsort as (ms & Hms & Hsort).
    injection Hsort as <- <-.
    unfold sorted in Hsorted.
    apply bind_Ok in Hsorted as (keys & Hkeys & Hsorted).
    injection Hsorted as <-.
    rewrite (sorted_markers f items keys Hkeys) in Hms. injection Hms as <-.
    apply bind_Ok in H as ([columns rows] & Hcols & H).
    apply build_columns_rows in Hcols as (news & Hnews & -> & _);
      [|apply length_replicate].
    pose proof (Forall2_length _ _ _ Hnews) as Hlen.
    rewrite Hlen, zip_with_app_replicate_nil in H.
    exists keys, news. split; [exact Hkeys|]. cbv zeta.
    split; [apply stable_sort_perm|].
    split; [apply stable_sort_sorted; assumption|].
    split; [intros k; apply stable_sort_stable; assumption|].
    split; [exact Hnews|].
    apply bind_Ok in H as (calls & Hcalls & H). injection H as <-. simpl.
    rewrite !length_fmap in Hlen.
    destruct news as [|row news].
    + injection Hcalls as <-.
      destruct (stable_sort lt (zip keys items)).*1; reflexivity.
    + destruct (stable_sort lt (zip keys items)) as [|[k x] by_key];
        [discriminate|].
      simpl in Hcalls. injection Hcalls as <-. simpl.
      rewrite ne_refl, zip_Some_markers. f_equal.
      apply add_rows_calls_after, ne_refl.
  - rewrite Ok_bind in H.
    apply bind_Ok in H as ([columns rows] & Hcols & H).
    apply build_columns_rows in Hcols as (news & Hnews & -> & _);
      [|apply length_replicate].
    pose proof (Forall2_length _ _ _ Hnews) as Hlen.
    rewrite Hlen, zip_with_app_replicate_nil in H.
    exists news. split; [exact Hnews|].
    apply bind_Ok in H as (calls & Hcalls & H). injection H as <-. simpl.
    destruct news as [|row news].
    + injection Hcalls as <-. reflexivity.
    + simpl in Hcalls. injection Hcalls as <-.
      apply (add_rows_unsectioned (row :: news)).
Qed.
Lemma build_columns_total fields items table_kwargs columns rows :
  length rows = length items ->
  Forall (fun tf => exists c,
            _build_field_content tf items table_kwargs false = Ok c) fields ->
  exists columns' rows',
    build_columns fields items table_kwargs columns rows
    = Ok (columns', rows') /\
    length rows' = length items.
Proof.
  intros Hlen Hfields. revert columns rows Hlen.
  induction Hfields as [|tf fields [c Hc] _ IH]; intros columns rows Hlen.
  - simpl. eauto.
  - simpl. rewrite Hc, Ok_bind.
    pose proof (build_field_content_length _ _ _ _ _ Hc) as Hclen.
    rewrite append_values_Ok, Ok_bind by lia.
    apply IH. rewrite length_zip_with. lia.
Qed.

(** The library's part of the normal build goes through as soon as the
    section function returns a key for every record and the content of every
    field can be built from the records in the order they are laid out: what
    is left to fail is rich's [Table], which is taken to accept its
    arguments. *)
Lemma normal_build_succeeds (self : @TableBuilder K) (items : list value)
    (table_kwargs : TableOptions) (laid_out : list value) :
  match section_by self with
  | Some f => sorted lt f items = Ok laid_out
  | None => laid_out = items
  end ->
  Forall (fun tf => exists c,
            _build_field_content tf laid_out table_kwargs false = Ok c)
    (_table_fields self).*2 ->
  exists t, _build_table_normal lt ne self items table_kwargs = Ok t.
Proof.
  intros Hlaid Hfields. unfold _build_table_normal.
  destruct (build_columns_total _ _ table_kwargs [] (replicate (length laid_out) [])
              (length_replicate _ _) Hfields)
    as (columns & rows & Hcols & Hrows).
  destruct (section_by self) as [f|].
  - rewrite Hlaid, Ok_bind. unfold sorted in Hlaid.
    apply bind_Ok in Hlaid as (keys & Hkeys & Hlaid). injection Hlaid as <-.
    rewrite (sorted_markers f items keys Hkeys), !Ok_bind, Hcols, Ok_bind.
    rewrite !length_fmap in Hrows.
    destruct rows as [|row rows]; [rewrite Ok_bind; eauto|].
    destruct (stable_sort lt (zip keys items)) as [|kx by_key];
      [discriminate Hrows|].
    simpl. eauto.
  - subst laid_out. rewrite Ok_bind, Hcols, Ok_bind.
    destruct rows as [|row rows]; [rewrite Ok_bind; eauto|].
    destruct items as [|item items]; [discriminate Hrows|].
    simpl. eauto.
Qed.
End NormalBuild.

Lemma int_lt_asym a b : int_lt a b = true -> int_lt b a = false.
Proof. unfold int_lt. lia. Qed.

Lemma int_lt_negtrans a b c :
  int_lt a b = false -> int_lt b c = false -> int_lt a c = false.
Proof. unfold int_lt. lia. Qed.

Lemma int_ne_refl a : int_ne a a = false.
Proof. unfold int_ne. lia. Qed.

Lemma int_ne_sym a b : int_ne a b = false -> int_ne b a = false.
Proof. unfold int_ne. lia. Qed.

Lemma int_ne_trans a b c :
  int_ne a b = false -> int_ne b c = false -> int_ne a c = false.
Proof. unfold int_ne. lia. Qed.

(** Four records in the groups 2, 1, 2, 1: the rows come out as b, d, a, c,
    with one section break, between d and a. *)
Lemma normal_rows_and_sections_witness :
  exists t,
    _build_table_normal int_lt int_ne grouped_builder grouped_items ∅ = Ok t /\
    Table.calls t
    = [add_row [RValue (VStr "b")]; add_row [RValue (VStr "d")]; add_section;
       add_row [RValue (VStr "a")]; add_row [RValue (VStr "c")]] /\
    exists keys rows,
      mapM group_of grouped_items = Ok keys /\
      Table.calls t
      = sectioned_calls int_ne
          (zip (stable_sort int_lt (zip keys grouped_items)).*1 rows).
Proof.
  destruct (_build_table_normal int_lt int_ne grouped_builder grouped_items ∅)
    as [t|e] eqn:Ht; [|vm_compute in Ht; discriminate Ht].
  exists t. split; [reflexivity|]. split.
  - vm_compute in Ht. injection Ht as <-. reflexivity.
  - pose proof (normal_rows_and_sections int_lt int_ne int_lt_asym
                  int_lt_negtrans int_ne_refl int_ne_sym int_ne_trans
                  grouped_builder grouped_items ∅ t Ht) as H.
    simpl in H. destruct H as (keys & rows & Hkeys & _ & _ & _ & _ & Hcalls).
    exists keys, rows. split; [exact Hkeys | exact Hcalls].
Defined.

(** ** style_by_value *)

Section StyleByValueProperties.
Context {V S G : Type} (eqb : V -> V -> bool) (next_style : G -> S * G).
Hypothesis eqb_refl : forall a, eqb a a = true.
Hypothesis eqb_sym : forall a b, eqb a b = true -> eqb b a = true.
Hypothesis eqb_trans :
  forall a b c, eqb a b = true -> eqb b c = true -> eqb a c = true.

Lemma eqb_equal a b c : eqb a b = true -> eqb c a = eqb c b.
Proof.
  intros Hab. destruct (eqb c b) eqn:Hcb.
  - eapply eqb_trans; [exact Hcb | apply eqb_sym, Hab].
  - destruct (eqb c a) eqn:Hca; [|reflexivity].
    rewrite (eqb_trans _ _ _ Hca Hab) in Hcb. discriminate.
Qed.

(** Equal values find the same entry. *)
Lemma seen_get_equal (seen_values : list (V * S)) a b :
  eqb a b = true -> seen_get eqb seen_values a = seen_get eqb seen_values b.
Proof.
  intros Hab. induction seen_values as [|[k s] rest IH]; [reflexivity|].
  simpl. rewrite (eqb_equal a b k Hab), IH. reflexivity.
Qed.

Lemma seen_get_set (seen_values : list (V * S)) value style :
  seen_get eqb (seen_set eqb seen_values value style) value = Some style.
Proof.
  induction seen_values as [|[k s] rest IH]; simpl.
  - rewrite eqb_refl. reflexivity.
  - destruct (eqb k value) eqn:Hk; simpl; rewrite Hk; [reflexivity | exact IH].
Qed.

(** Setting the style of one value leaves the styles of unequal values. *)
Lemma seen_get_set_other (seen_values : list (V * S)) value style other :
  eqb value other = false ->
  seen_get eqb (seen_set eqb seen_values value style) other
  = seen_get eqb seen_values other.
Proof.
  intros Hne. induction seen_values as [|[k s] rest IH]; simpl.
  - rewrite Hne. reflexivity.
  - destruct (eqb k value) eqn:Hk; simpl.
    + destruct (eqb k other) eqn:Hko; [|reflexivity].
      rewrite (eqb_trans _ _ _ (eqb_sym _ _ Hk) Hko) in Hne. discriminate.
    + rewrite IH. reflexivity.
Qed.

(** What one application does. *)
Lemma format_value_cases f value w seen_values :
  closures w !! f = Some seen_values ->
  format_value eqb next_style f value w
  = match seen_get eqb seen_values value with
    | Some style =>
        Some (Ok (value, style),
              mkWorld (generator w) (<[f := seen_values]> (closures w)))
    | None =>
        let style := (next_style (generator w)).1 in
        Some (Ok (value, style),
              mkWorld (next_style (generator w)).2
                (<[f := seen_set eqb seen_values value style]> (closures w)))
    end.
Proof.
  intros Hf. unfold format_value. rewrite Hf. simpl.
  destruct (seen_get eqb seen_values value) as [style|] eqn:Hget.
  - rewrite Hget. reflexivity.
  - destruct (next_style (generator w)) as [style g]. simpl.
    rewrite seen_get_set. reflexivity.
Qed.

(** An application returns the value with a style, and the closure
    remembers that style for the value afterwards. *)
Lemma format_value_remembers f value w r w' :
  format_value eqb next_style f value w = Some (r, w') ->
  exists style, r = Ok (value, style) /\ remembers eqb w' f value style.
Proof.
  intros H. destruct (closures w !! f) as [seen_values|] eqn:Hf;
    [|unfold format_value in H; rewrite Hf in H; discriminate].
  rewrite (format_value_cases _ _ _ _ Hf) in H.
  pose proof (lookup_lt_Some _ _ _ Hf) as Hlt.
  destruct (seen_get eqb seen_values value) as [style|] eqn:Hget;
    injection H as <- <-; eexists; (split; [reflexivity|]);
    eexists; (split; [apply list_lookup_insert_eq, Hlt|]).
  - exact Hget.
  - apply seen_get_set.
Qed.

(** Once a closure remembers a style for a value, no later call changes
    it: neither a call of this closure, nor a call of another one, nor the
    creation of a closure. *)
Lemma call_step_remembers w w' f value style :
  call_step eqb next_style w w' ->
  remembers eqb w f value style -> remembers eqb w' f value style.
Proof.
  intros Hstep (seen_values & Hf & Hget).
  destruct Hstep as [w | f' value' w r w' Happly].
  - exists seen_values. split; [|exact Hget]. simpl.
    apply lookup_app_l_Some, Hf.
  - destruct (closures w !! f') as [seen'|] eqn:Hf';
      [|unfold format_value in Happly; rewrite Hf' in Happly; discriminate].
    rewrite (format_value_cases _ _ _ _ Hf') in Happly.
    pose proof (lookup_lt_Some _ _ _ Hf') as Hlt.
    destruct (decide (f' = f)) as [->|Hne].
    + rewrite Hf in Hf'. injection Hf' as <-.
      destruct (seen_get eqb seen_values value') as [style'|] eqn:Hget';
        injection Happly as <- <-; eexists;
        (split; [apply list_lookup_insert_eq, Hlt|]); [exact Hget|].
      rewrite seen_get_set_other; [exact Hget|].
      destruct (eqb value' value) eqn:Heq; [|reflexivity].
      rewrite (seen_get_equal _ _ _ Heq), Hget in Hget'. discriminate.
    + exists seen_values. split; [|exact Hget].
      destruct (seen_get eqb seen' value');
        injection Happly as <- <-; simpl;
        rewrite list_lookup_insert_ne by exact Hne; exact Hf.
Qed.

Lemma call_steps_remember w w' f value style :
  rtc (call_step eqb next_style) w w' ->
  remembers eqb w f value style -> remembers eqb w' f value style.
Proof.
  induction 1 as [|w w1 w2 Hstep _ IH]; [exact id|].
  intros H. apply IH. eapply call_step_remembers; eassumption.
Qed.

(** C8: an application of a closure to a value it has no style for takes
    the next style of the generator; whatever calls are made afterwards, every
    application of that closure to an equal value returns the style of the
    first application; and an application changes the dictionary of no other
    closure.  The dictionary belongs to the instance: [style_by_value] gives
    a new closure an address at which no closure is alive, so never the
    address of this one, and an empty dictionary of its own, without calling
    the generator and without touching the closures alive; whatever they
    remember, the first application of the new closure to a value takes the
    next style of the generator. *)
Theorem style_by_value_first_style_kept f value w r w1 :
  format_value eqb next_style f value w = Some (r, w1) ->
  exists style,
    r = Ok (value, style) /\
    (forall seen_values,
        closures w !! f = Some seen_values ->
        seen_get eqb seen_values value = None ->
        style = (next_style (generator w)).1 /\
        generator w1 = (next_style (generator w)).2) /\
    (forall w2 value',
        rtc (call_step eqb next_style) w1 w2 ->
        eqb value value' = true ->
        exists w3,
          format_value eqb next_style f value' w2
          = Some (Ok (value', style), w3)) /\
    (forall f', f' <> f -> closures w1 !! f' = closures w !! f') /\
    (forall w2 new w3,
        style_by_value w2 = (new, w3) ->
        closures w2 !! new = None /\
        closures w3 !! new = Some [] /\
        generator w3 = generator w2 /\
        (forall f', f' <> new -> closures w3 !! f' = closures w2 !! f') /\
        (forall value',
            exists w4,
              format_value eqb next_style new value' w3
              = Some (Ok (value', (next_style (generator w2)).1), w4) /\
              generator w4 = (next_style (generator w2)).2) /\
        (rtc (call_step eqb next_style) w1 w2 -> new <> f)).
Proof.
  intros H.
  destruct (format_value_remembers _ _ _ _ _ H) as (style & -> & Hrem).
  exists style. split; [reflexivity|]. split; [|split; [|split]].
  - intros seen_values Hf Hget.
    rewrite (format_value_cases _ _ _ _ Hf), Hget in H.
    injection H as <- <-. split; reflexivity.
  - intros w2 value' Hsteps Heq.
    destruct (call_steps_remember _ _ _ _ _ Hsteps Hrem)
      as (seen_values & Hf & Hget).
    rewrite (format_value_cases _ _ _ _ Hf).
    rewrite <- (seen_get_equal _ _ _ Heq), Hget. eauto.
  - intros f' Hne.
    destruct (closures w !! f) as [seen_values|] eqn:Hf;
      [|unfold format_value in H; rewrite Hf in H; discriminate].
    rewrite (format_value_cases _ _ _ _ Hf) in H.
    destruct (seen_get eqb seen_values value);
      injection H as _ <-; simpl;
      apply list_lookup_insert_ne; congruence.
  - intros w2 new w3 Hnew. injection Hnew as <- <-.
    assert (Hfree : closures w2 !! length (closures w2) = None)
      by (apply lookup_ge_None_2; lia).
    assert (Hown : (closures w2 ++ [[]]) !! length (closures w2) = Some [])
      by (apply list_lookup_middle; reflexivity).
    split; [exact Hfree|]. split; [exact Hown|]. split; [reflexivity|].
    split; [|split].
    + intros f' Hne. simpl.
      destruct (decide (f' < length (closures w2))%nat) as [Hlt|Hge].
      * apply lookup_app_l. exact Hlt.
      * assert (Hold : closures w2 !! f' = None)
          by (apply lookup_ge_None_2; lia).
        rewrite Hold. apply lookup_ge_None_2. rewrite length_app. simpl. lia.
    + intros value'.
      rewrite (format_value_cases (length (closures w2)) value'
                 (mkWorld (generator w2) (closures w2 ++ [[]])) [] Hown).
      simpl. eexists. split; reflexivity.
    + intros Hsteps Heq.
      destruct (call_steps_remember _ _ _ _ _ Hsteps Hrem)
        as (seen_values & Hf & _).
      rewrite <- Heq, Hfree in Hf. discriminate Hf.
Qed.

(** A new closure starts with an empty dictionary and leaves the closures
    that exist as they are. *)
Lemma style_by_value_fresh (w : @world V S G) :
  closures (style_by_value w).2 !! (style_by_value w).1 = Some [] /\
  forall f seen_values,
    closures w !! f = Some seen_values ->
    closures (style_by_value w).2 !! f = Some seen_values.
Proof.
  simpl. split.
  - apply list_lookup_middle. reflexivity.
  - intros f seen_values Hf. apply lookup_app_l_Some, Hf.
Qed.
End StyleByValueProperties.

Lemma str_eqb_refl (a : string) : String.eqb a a = true.
Proof. apply String.eqb_refl. Qed.

Lemma str_eqb_sym (a b : string) : String.eqb a b = true -> String.eqb b a = true.
Proof. rewrite !String.eqb_eq. congruence. Qed.

Lemma str_eqb_trans (a b c : string) :
  String.eqb a b = true -> String.eqb b c = true -> String.eqb a c = true.
Proof. rewrite !String.eqb_eq. congruence. Qed.

(** The example of the docstring, on [rainbow_cycle]: ["apple"], then
    ["banana"], then ["apple"] again, which gets the style of its first
    application.  A second closure made after ["banana"] is at address 1, and
    its first ["apple"] gets the third color, not the one the first closure
    remembers. *)
Lemma style_by_value_first_style_kept_witness :
  exists w1 w2 w3 w4,
    format_value String.eqb rainbow_cycle 0 "apple" one_closure
    = Some (Ok ("apple", "red"), w1) /\
    format_value String.eqb rainbow_cycle 0 "banana" w1
    = Some (Ok ("banana", "orange1"), w2) /\
    format_value String.eqb rainbow_cycle 0 "apple" w2
    = Some (Ok ("apple", "red"), w3) /\
    (style_by_value w2).1 = 1%nat /\
    format_value String.eqb rainbow_cycle 1 "apple" (style_by_value w2).2
    = Some (Ok ("apple", "yellow2"), w4).
Proof.
  destruct (format_value String.eqb rainbow_cycle 0 "apple" one_closure)
    as [[r1 w1]|] eqn:H1; [|discriminate H1].
  destruct (format_value String.eqb rainbow_cycle 0 "banana" w1)
    as [[r2 w2]|] eqn:H2;
    [|vm_compute in H1; injection H1 as <- <-; discriminate H2].
  destruct (style_by_value_first_style_kept String.eqb rainbow_cycle
              str_eqb_refl str_eqb_sym str_eqb_trans 0 "apple" one_closure
              r1 w1 H1)
    as (style & Hr1 & Hfirst & Hlater & _ & Hnew).
  destruct (Hfirst [] eq_refl eq_refl) as [Hstyle _]. simpl in Hstyle.
  destruct (Hlater w2 "apple"
              (rtc_once _ _ (step_apply _ _ _ _ _ _ _ H2)) eq_refl)
    as [w3 H3].
  destruct (Hnew w2 (style_by_value w2).1 (style_by_value w2).2 eq_refl)
    as (_ & _ & _ & _ & Happly & _).
  destruct (Happly "apple") as (w4 & H4 & _).
  exists w1, w2, w3, w4. subst style r1.
  split; [reflexivity|].
  vm_compute in H1. injection H1 as <-. vm_compute in H2.
  injection H2 as <- <-.
  split; [reflexivity|]. split; [exact H3|]. split; [reflexivity | exact H4].
Defined.

(** ** The examples of the docstrings *)

Example Obj_key_key :
  ObjType.__call__ Obj.[KStr "a"].[KStr "b"]
    (VDict [(KStr "a", VDict [(KStr "b", VInt 1)])]) NO_DEFAULT = Ok (VInt 1).
Proof. reflexivity. Qed.

Example Obj_attr_attr_missing :
  ObjType.__call__ Obj.@"a".@"b" (VStr "foo") NO_DEFAULT
  = Raise (Exc KeyError "Obj.a.b").
Proof. reflexivity. Qed.

Example Obj_attr_attr_default :
  ObjType.__call__ Obj.@"a".@"b" (VStr "foo") (VStr "default")
  = Ok (VStr "default").
Proof. reflexivity. Qed.

Example Obj_identity : ObjType.__call__ Obj (VInt 12) NO_DEFAULT = Ok (VInt 12).
Proof. reflexivity. Qed.

Example Obj_index_tuple :
  ObjType.__call__ Obj.[KInt 1] (VTuple [VStr "foo"; VStr "bar"]) NO_DEFAULT
  = Ok (VStr "bar").
Proof. reflexivity. Qed.

Example Obj_attribute_of_object :
  ObjType.__call__ Obj.@"cart".[KStr "price"]
    (VObj "Order" [("cart", VDict [(KStr "price", VInt 3)])]) NO_DEFAULT
  = Ok (VInt 3).
Proof. reflexivity. Qed.

Example repr_mixed :
  ObjType.__repr__ Obj.[KStr "a"].@"b".[KInt (-1)] = "Obj['a'].b[-1]".
Proof. vm_compute. reflexivity. Qed.

Example field_string_key :
  (tf ← TableField.__init__ (field_kwargs "Name" "name" None);
   TableField._get_field_value tf (VDict [(KStr "name", VStr "Alice")]))
  = Ok (VStr "Alice").
Proof. reflexivity. Qed.

Example field_nested_key :
  (tf ← TableField.__init__
          (key_kwargs (KeyPath Obj.[KStr "contact"].[KStr "address"]));
   TableField._get_field_value tf
     (VDict [(KStr "contact", VDict [(KStr "address", VStr "123 Main St")])]))
  = Ok (VStr "123 Main St").
Proof. reflexivity. Qed.

(** The cart in normal orientation: the rows of the two records, in order,
    and the footers [""], ["3"] and ["-"]. *)
Example cart_normal :
  (t ← _build_table_normal int_lt int_ne cart_builder cart show_both;
   Ok (Column.footer <$> Table.columns t, Table.calls t))
  = Ok ([RValue (VStr ""); RValue (VStr "3"); RValue (VStr "-")],
        [add_row [RValue (VStr "A"); RValue (VStr "1"); RValue (VStr "10")];
         add_row [RValue (VStr "B"); RValue (VStr "2"); RValue (VStr "20")]]).
Proof. vm_compute. reflexivity. Qed.

(** * Further properties *)

(** ** Accessor paths: transforms, textual form, what a call can return *)

Lemma walk_same_accessors self self' default accs obj :
  ObjType.__accessors__ self = ObjType.__accessors__ self' ->
  ObjType.walk self default accs obj = ObjType.walk self' default accs obj.
Proof.
  intros Hacc. revert obj. induction accs as [|a accs IH]; intros obj;
    [reflexivity|].
  rewrite !walk_cons. destruct (lookup_step a obj) as [o|e]; [|reflexivity].
  rewrite !Ok_bind. unfold missing_check, ObjType.__repr__. rewrite Hacc.
  destruct (is_MISSING o), (is_NO_DEFAULT default);
    rewrite ?Ok_bind, ?Raise_bind; auto.
Qed.

Lemma apply_transforms_app ts ts' obj :
  ObjType.apply_transforms (ts ++ ts') obj
  = (o ← ObjType.apply_transforms ts obj; ObjType.apply_transforms ts' o).
Proof.
  revert obj. induction ts as [|t ts IH]; intros obj; [reflexivity|].
  simpl. destruct (t obj) as [o|e]; [|reflexivity]. rewrite !Ok_bind. apply IH.
Qed.

(** X1: calling [p._apply(f)] is calling [p] and then [f] on its result,
    with the same object and the same default: the transform also receives a
    substituted default, and an exception of [p] keeps [f] from being
    called. *)
Theorem apply_is_call_then_transform self f obj default :
  ObjType.__call__ (ObjType._apply self f) obj default
  = (v ← ObjType.__call__ self obj default; f v).
Proof.
  unfold ObjType.__call__. simpl.
  rewrite (walk_same_accessors (ObjType._apply self f) self) by reflexivity.
  destruct (ObjType.walk self default (ObjType.__accessors__ self) obj)
    as [o|e]; [|reflexivity].
  rewrite !Ok_bind, apply_transforms_app.
  destruct (ObjType.apply_transforms (ObjType.__transforms__ self) o)
    as [o'|e]; [|reflexivity].
  rewrite !Ok_bind. simpl. destruct (f o'); reflexivity.
Qed.

Lemma append_assoc (a b c : string) : (a +:+ b) +:+ c = a +:+ (b +:+ c).
Proof.
  induction a as [|ch a IH]; [reflexivity|].
  change (String ch ((a +:+ b) +:+ c) = String ch (a +:+ (b +:+ c))).
  f_equal. exact IH.
Qed.

Lemma join_empty_snoc parts part :
  join "" (parts ++ [part]) = join "" parts +:+ part.
Proof.
  unfold join. induction parts as [|x [|y parts] IH]; [reflexivity| |].
  - reflexivity.
  - change (x +:+ String.concat "" ((y :: parts) ++ [part])
            = (x +:+ String.concat "" (y :: parts)) +:+ part).
    rewrite IH, append_assoc. reflexivity.
Qed.

(** X2: the textual form of a derived path is the textual form of its
    base followed by the segment of the new step, [[repr(k)]] or [.name];
    transforms do not show. *)
Theorem repr_of_derived_path self :
  (forall k, ObjType.__repr__ self.[k]
             = ObjType.__repr__ self +:+ "[" +:+ py_repr_key k +:+ "]") /\
  (forall name, ObjType.__repr__ self.@name
                = ObjType.__repr__ self +:+ "." +:+ name) /\
  (forall f, ObjType.__repr__ (ObjType._apply self f) = ObjType.__repr__ self).
Proof.
  split; [|split].
  - intros k. rewrite !repr_segments. simpl ObjType.__accessors__.
    rewrite fmap_app.
    change (segment <$> [("key", k)]) with ["[" +:+ py_repr_key k +:+ "]"].
    rewrite join_empty_snoc, append_assoc. reflexivity.
  - intros name. rewrite !repr_segments. simpl ObjType.__accessors__.
    rewrite fmap_app.
    change (segment <$> [("attr", KStr name)]) with ["." +:+ name].
    rewrite join_empty_snoc, append_assoc. reflexivity.
  - intros f. reflexivity.
Qed.

(** X3: when every step of a path is present, the call returns the
    chained lookup, passed through the transforms, whatever the default. *)
Theorem present_path_ignores_default self obj v default :
  reaches (ObjType.__accessors__ self) obj v ->
  ObjType.__call__ self obj default
  = ObjType.apply_transforms (ObjType.__transforms__ self) v.
Proof.
  intros H. unfold ObjType.__call__.
  rewrite (walk_reaches _ _ _ _ _ H). reflexivity.
Qed.

Lemma present_path_ignores_default_witness :
  ObjType.__call__ Obj.[KStr "a"].[KInt (-1)]
    (VDict [(KStr "a", VList [VInt 1; VInt 2])]) (VStr "none")
  = Ok (VInt 2).
Proof.
  apply (present_path_ignores_default Obj.[KStr "a"].[KInt (-1)]
           (VDict [(KStr "a", VList [VInt 1; VInt 2])]) (VInt 2)).
  apply (reaches_cons _ _ _ (VList [VInt 1; VInt 2])); [reflexivity..|].
  apply (reaches_cons _ _ _ (VInt 2)); [reflexivity..|]. constructor.
Defined.

(** [Obj.user["name"]] on an object without the attribute [user]. *)
Lemma absent_step_raises_path_witness :
  ObjType.__call__ Obj.@"user".[KStr "name"] (VObj "Order" []) NO_DEFAULT
  = Raise (Exc KeyError "Obj.user['name']").
Proof.
  rewrite (absent_step_raises_path Obj.@"user".[KStr "name"] []
             ("attr", KStr "user") [("key", KStr "name")]
             (VObj "Order" []) (VObj "Order" [])).
  - reflexivity.
  - reflexivity.
  - constructor.
  - reflexivity.
Defined.

Lemma missing_check_not_MISSING self default o v :
  is_MISSING default = false ->
  missing_check self default o = Ok v -> is_MISSING v = false.
Proof.
  unfold missing_check. intros Hd.
  destruct (is_MISSING o) eqn:Ho.
  - destruct (is_NO_DEFAULT default); [discriminate|].
    intros H. injection H as <-. exact Hd.
  - intros H. injection H as <-. exact Ho.
Qed.

(** X5: the [MISSING] marker never comes out of a call: with an object
    and a default that are not the marker itself, a path without transforms
    returns a value that is not the marker. *)
Theorem missing_marker_never_returned self obj default v :
  ObjType.__transforms__ self = [] ->
  is_MISSING obj = false ->
  is_MISSING default = false ->
  ObjType.__call__ self obj default = Ok v ->
  is_MISSING v = false.
Proof.
  intros Hts Hobj Hd. unfold ObjType.__call__. rewrite Hts.
  generalize (ObjType.__accessors__ self) as accs. intros accs H.
  assert (Hw : ObjType.walk self default accs obj = Ok v).
  { destruct (ObjType.walk self default accs obj);
      [exact H | discriminate H]. }
  clear H. revert obj Hobj Hw.
  induction accs as [|a accs IH]; intros obj Hobj Hw.
  - injection Hw as <-. exact Hobj.
  - rewrite walk_cons in Hw. apply bind_Ok in Hw as (o & _ & Hw).
    apply bind_Ok in Hw as (o' & Ho' & Hw).
    apply (IH o'); [|exact Hw].
    exact (missing_check_not_MISSING self default o o' Hd Ho').
Qed.

(** A dictionary that holds the marker itself under ["a"]: the call
    returns the default. *)
Lemma missing_marker_never_returned_witness :
  ObjType.__call__ Obj.[KStr "a"] (VDict [(KStr "a", MISSING)]) VNone
  = Ok VNone /\
  is_MISSING VNone = false.
Proof.
  split; [reflexivity|].
  apply (missing_marker_never_returned Obj.[KStr "a"]
           (VDict [(KStr "a", MISSING)]) VNone VNone);
    reflexivity.
Defined.

(** X6: with a default, a path without transforms raises neither
    [KeyError] nor [IndexError]: a missing key or index is never an error of
    the call. *)
Theorem default_silences_lookup_errors self obj default e :
  ObjType.__transforms__ self = [] ->
  is_NO_DEFAULT default = false ->
  ObjType.__call__ self obj default = Raise e ->
  caught e = false.
Proof.
  intros Hts Hd. unfold ObjType.__call__. rewrite Hts.
  generalize (ObjType.__accessors__ self) as accs. intros accs H.
  assert (Hw : ObjType.walk self default accs obj = Raise e).
  { destruct (ObjType.walk self default accs obj);
      [discriminate H | exact H]. }
  clear H. revert obj Hw.
  induction accs as [|[t k] accs IH]; intros obj Hw; [discriminate|].
  rewrite walk_cons in Hw.
  destruct (lookup_step (t, k) obj) as [o|e'] eqn:Hl.
  - rewrite Ok_bind in Hw. unfold missing_check in Hw. rewrite Hd in Hw.
    destruct (is_MISSING o); rewrite Ok_bind in Hw; eapply IH, Hw.
  - rewrite Raise_bind in Hw. injection Hw as ->.
    unfold lookup_step in Hl. destruct (decide (t = "key")).
    + destruct (py_getitem obj k) as [?|e']; [discriminate|].
      unfold caught. destruct (exc_cls e') eqn:Hc; try discriminate;
        injection Hl as <-; rewrite Hc; reflexivity.
    + destruct k; [discriminate|]. injection Hl as <-. reflexivity.
Qed.

(** [Obj[5]["a"]] on the empty list with the default [0]: the
    [IndexError] of the first step is silenced, what is raised is the
    [TypeError] of the second. *)
Lemma default_silences_lookup_errors_witness :
  ObjType.__call__ Obj.[KInt 5].[KStr "a"] (VList []) (VInt 0)
  = Raise (not_subscriptable (VInt 0)) /\
  caught (not_subscriptable (VInt 0)) = false.
Proof.
  split; [reflexivity|].
  apply (default_silences_lookup_errors Obj.[KInt 5].[KStr "a"] (VList [])
           (VInt 0) (not_subscriptable (VInt 0)));
    reflexivity.
Defined.

(** ** Fields with a string key *)

(** X7: a field declared with a string key reads a dictionary record
    without ever raising: the value under the key, and the default of the
    field when the key is absent or its value is [None].  A record that cannot
    be indexed makes the extraction raise the [TypeError] of the indexing, the
    default notwithstanding. *)
Theorem string_key_field kw tf s :
  TableField.__init__ kw = Ok tf ->
  TableField.kw_key kw = Some (KeyValue (VStr s)) ->
  is_NO_DEFAULT (TableField.default tf) = false ->
  (forall items,
      TableField._get_field_value tf (VDict items)
      = Ok match dict_get items (KStr s) with
           | Some v =>
               if is_None v || is_MISSING v then TableField.default tf else v
           | None => TableField.default tf
           end) /\
  (forall obj,
      match obj with
      | VNone | VBool _ | VInt _ | VObj _ _ => True
      | _ => False
      end ->
      TableField._get_field_value tf obj = Raise (not_subscriptable obj)).
Proof.
  intros Hinit Hkey Hd. pose proof (init_getter kw) as Hg.
  rewrite Hkey in Hg. simpl in Hg. destruct Hg as (tf' & Htf' & Hg).
  rewrite Hinit in Htf'. injection Htf' as <-.
  unfold TableField._get_field_value. rewrite Hg.
  unfold ObjType.__call__. simpl ObjType.__accessors__.
  simpl ObjType.__transforms__. split.
  - intros items. rewrite walk_cons. unfold lookup_step. simpl.
    destruct (dict_get items (KStr s)) as [v|]; simpl.
    + unfold missing_check. destruct (is_MISSING v) eqn:Hm; simpl.
      * rewrite Hd. simpl. rewrite orb_true_r.
        destruct (is_None (TableField.default tf)); reflexivity.
      * rewrite orb_false_r. reflexivity.
    + unfold missing_check. simpl. rewrite Hd. simpl.
      destruct (is_None (TableField.default tf)); reflexivity.
  - intros obj Hobj. rewrite walk_cons. unfold lookup_step. simpl.
    destruct obj; try contradiction; reflexivity.
Qed.

(** The field [TableField(key="name", default="n/a")] on a record with a
    name, on one whose name is [None], on one without a name, and on [None]. *)
Lemma string_key_field_witness :
  exists tf,
    TableField.__init__ name_or_na = Ok tf /\
    TableField._get_field_value tf (VDict [(KStr "name", VStr "A")])
    = Ok (VStr "A") /\
    TableField._get_field_value tf (VDict [(KStr "name", VNone)])
    = Ok (VStr "n/a") /\
    TableField._get_field_value tf (VDict []) = Ok (VStr "n/a") /\
    TableField._get_field_value tf VNone = Raise (not_subscriptable VNone).
Proof.
  eexists. split; [reflexivity|].
  match goal with
  | |- TableField._get_field_value ?tf _ = _ /\ _ =>
      destruct (string_key_field name_or_na tf "name" eq_refl eq_refl eq_refl)
        as [Hdict Hother]
  end.
  rewrite !Hdict.
  split; [reflexivity|]. split; [reflexivity|]. split; [reflexivity|].
  apply Hother. exact I.
Defined.

(** ** The normal build: columns, shape, no records *)

Lemma mapM_cons {A B : Type} (f : A -> result B) x l :
  mapM f (x :: l) = (y ← f x; k ← mapM f l; Ok (y :: k)).
Proof. reflexivity. Qed.

Lemma build_columns_columns fields items table_kwargs columns rows columns' rows' :
  build_columns fields items table_kwargs columns rows = Ok (columns', rows') ->
  exists news,
    mapM (column_of table_kwargs items) fields = Ok news /\
    columns' = columns ++ news.
Proof.
  revert columns rows. induction fields as [|tf fields IH]; intros columns rows H.
  - simpl in H. injection H as <- <-. exists [].
    split; [reflexivity | rewrite app_nil_r; reflexivity].
  - simpl in H. apply bind_Ok in H as (c & Hc & H).
    apply bind_Ok in H as (rows1 & _ & H).
    apply IH in H as (news & Hnews & ->).
    exists (column tf (TableFieldContent.header c)
              (or_empty (TableFieldContent.footer c)) :: news).
    split; [|rewrite <- app_assoc; reflexivity].
    assert (Hcol : column_of table_kwargs items tf
                   = Ok (column tf (TableFieldContent.header c)
                           (or_empty (TableFieldContent.footer c)))).
    { unfold column_of. rewrite Hc. reflexivity. }
    rewrite mapM_cons, Hcol, !Ok_bind, Hnews. reflexivity.
Qed.

Lemma table_rows_add_rows {K : Type} (ne : K -> K -> bool) columns kwargs m
    (zipped : list (option K * list renderable)) :
  table_rows (Table.mk columns kwargs (add_rows ne m zipped)) = zipped.*2.
Proof.
  unfold table_rows. simpl. revert m.
  induction zipped as [|[marker row] zipped IH]; intros m; [reflexivity|].
  simpl. destruct (marker_ne ne marker m); simpl; rewrite IH; reflexivity.
Qed.

Lemma sorted_perm {K : Type} (lt : K -> K -> bool) (f : value -> result K)
    items laid_out :
  sorted lt f items = Ok laid_out -> laid_out ≡ₚ items.
Proof.
  unfold sorted. intros H. apply bind_Ok in H as (keys & Hkeys & H).
  injection H as <-. rewrite stable_sort_perm.
  rewrite snd_zip; [reflexivity|]. apply mapM_length in Hkeys. lia.
Qed.

(** What a normal build that returns a table has gone through. *)
Lemma normal_build_Ok {K : Type} (lt ne : K -> K -> bool)
    (self : @TableBuilder K) items table_kwargs t :
  _build_table_normal lt ne self items table_kwargs = Ok t ->
  exists laid_out columns rows,
    match section_by self with
    | Some f => sorted lt f items = Ok laid_out
    | None => laid_out = items
    end /\
    build_columns (_table_fields self).*2 laid_out table_kwargs []
      (replicate (length laid_out) []) = Ok (columns, rows) /\
    length rows = length laid_out /\
    Table.columns t = columns /\
    Table.kwargs t = table_kwargs /\
    table_rows t = rows.
Proof.
  unfold _build_table_normal. intros H.
  apply bind_Ok in H as ([laid_out markers] & Hlaid & H).
  apply bind_Ok in H as ([columns rows] & Hcols & H).
  apply bind_Ok in H as (calls & Hcalls & H). injection H as <-.
  exists laid_out, columns, rows.
  pose proof Hcols as Hrows.
  apply build_columns_rows in Hrows as (news & Hnews & Hrows & _);
    [|apply length_replicate].
  pose proof (Forall2_length _ _ _ Hnews) as Hlen.
  rewrite Hlen, zip_with_app_replicate_nil in Hrows. subst news.
  assert (Hmarkers : length markers = length laid_out /\
            match section_by self with
            | Some f => sorted lt f items = Ok laid_out
            | None => laid_out = items
            end).
  { destruct (section_by self) as [f|].
    - apply bind_Ok in Hlaid as (its & Hsorted & Hlaid).
      apply bind_Ok in Hlaid as (ms & Hms & Hlaid). injection Hlaid as <- <-.
      apply mapM_length in Hms. rewrite length_fmap. auto.
    - injection Hlaid as <- <-. rewrite length_replicate. auto. }
  destruct Hmarkers as [Hmlen Hsec].
  split; [exact Hsec|]. split; [exact Hcols|]. split; [lia|].
  split; [reflexivity|]. split; [reflexivity|].
  destruct rows as [|row rows].
  - injection Hcalls as <-. reflexivity.
  - destruct markers as [|m markers]; [discriminate Hcalls|].
    assert (Hc : calls = add_rows ne m (zip (m :: markers) (row :: rows)))
      by (injection Hcalls as <-; reflexivity).
    rewrite Hc, table_rows_add_rows. apply snd_zip. lia.
Qed.

(** X8: a normal build that returns a table has one column per field, in
    the order of the fields, each with the header and the footer (or the empty
    string) of its field content; one row per record, each with one cell per
    field; the records are laid out in input order, or sorted when there is a
    section function; and the options are handed on to the table as they
    are. *)
Theorem normal_columns_and_rows {K : Type} (lt ne : K -> K -> bool)
    (self : @TableBuilder K) items table_kwargs t :
  _build_table_normal lt ne self items table_kwargs = Ok t ->
  let fields := (_table_fields self).*2 in
  exists laid_out,
    match section_by self with
    | Some f => sorted lt f items = Ok laid_out
    | None => laid_out = items
    end /\
    laid_out ≡ₚ items /\
    mapM (column_of table_kwargs laid_out) fields = Ok (Table.columns t) /\
    mapM (row_of fields table_kwargs) laid_out = Ok (table_rows t) /\
    length (Table.columns t) = length fields /\
    length (table_rows t) = length items /\
    Forall (fun row => length row = length fields) (table_rows t) /\
    Table.kwargs t = table_kwargs.
Proof.
  intros H fields.
  apply normal_build_Ok in H
    as (laid_out & columns & rows & Hlaid & Hcols & Hlen & <- & Hkw & <-).
  assert (Hperm : laid_out ≡ₚ items).
  { destruct (section_by self) as [f|];
      [eapply sorted_perm, Hlaid | subst; reflexivity]. }
  pose proof Hcols as Hcs.
  apply build_columns_columns in Hcs as (news & Hnews & Hcs).
  simpl in Hcs. subst news.
  apply build_columns_rows in Hcols as (news & Hrows & Hnews' & _);
    [|apply length_replicate].
  pose proof (Forall2_length _ _ _ Hrows) as Hnlen.
  rewrite Hnlen, zip_with_app_replicate_nil in Hnews'. subst news.
  exists laid_out. split; [exact Hlaid|]. split; [exact Hperm|].
  split; [exact Hnews|]. split; [apply mapM_Ok, Hrows|].
  split; [eapply mapM_length, Hnews|].
  split; [rewrite Hlen; apply Permutation_length, Hperm|].
  split; [|exact Hkw].
  clear -Hrows. induction Hrows as [|item row items rows Hrow _ IH];
    constructor; [|exact IH].
  eapply mapM_length, Hrow.
Qed.

(** The cart, in normal orientation: three columns, two rows of three
    cells. *)
Lemma normal_columns_and_rows_witness :
  exists t,
    _build_table_normal int_lt int_ne cart_builder cart show_both = Ok t /\
    length (Table.columns t) = 3%nat /\
    length (table_rows t) = 2%nat /\
    Forall (fun row => length row = 3%nat) (table_rows t) /\
    Table.kwargs t = show_both.
Proof.
  destruct (_build_table_normal int_lt int_ne cart_builder cart show_both)
    as [t|e] eqn:Ht; [|vm_compute in Ht; discriminate Ht].
  destruct (normal_columns_and_rows int_lt int_ne cart_builder cart show_both
              t Ht)
    as (laid_out & _ & _ & _ & _ & Hc & Hr & Hcells & Hkw).
  exists t. auto.
Defined.





(** ** The transposed build against the normal one *)

Lemma format_with_style tf v default_style :
  TableField._format_field_value tf v true default_style
  = (r ← TableField._format_field_value tf v false default_style;
     Ok (TableField._apply_style r
           (py_or (TableField.style tf) default_style))).
Proof.
  unfold TableField._format_field_value.
  destruct (TableField.formatter tf) as [f|]; [|reflexivity].
  destruct (negb (is_None (if is_None v then VStr "" else v)));
    [|reflexivity].
  destruct (f (if is_None v then VStr "" else v)); reflexivity.
Qed.

Lemma table_rows_add_row columns kwargs rows :
  table_rows (Table.mk columns kwargs (add_row <$> rows)) = rows.
Proof.
  unfold table_rows. simpl.
  induction rows as [|row rows IH]; [reflexivity|].
  simpl. f_equal. exact IH.
Qed.

(** What a transposed build that returns a table has gone through. *)
Lemma transposed_build_Ok {K : Type} (self : @TableBuilder K) values
    table_kwargs show_header show_footer t :
  kwargs_get table_kwargs "show_header" (VBool true) = VBool show_header ->
  kwargs_get table_kwargs "show_footer" (VBool false) = VBool show_footer ->
  _build_table_transposed self values table_kwargs = Ok t ->
  kwargs_get (Table.kwargs t) "style" (VStr "")
  = kwargs_get table_kwargs "style" (VStr "") /\
  Forall2
    (fun tf row =>
       exists c,
         _build_field_content tf values (Table.kwargs t) true = Ok c /\
         row = (if show_header
                then [or_empty (TableFieldContent.header c)] else [])
               ++ TableFieldContent.values c
               ++ (if show_footer
                   then [or_empty (TableFieldContent.footer c)] else []))
    (_table_fields self).*2 (table_rows t).
Proof.
  intros Hh Hf Hbuild. unfold _build_table_transposed in Hbuild.
  assert (Hf' : kwargs_get (delete "show_header" table_kwargs) "show_footer"
                  (VBool false) = VBool show_footer).
  { unfold kwargs_get in *. rewrite lookup_delete_ne by discriminate.
    exact Hf. }
  rewrite Hh, Hf' in Hbuild. simpl int_add in Hbuild.
  rewrite !Ok_bind in Hbuild.
  apply bind_Ok in Hbuild as (rows & Hrows & Hbuild).
  injection Hbuild as <-. rewrite table_rows_add_row. simpl. split.
  - unfold kwargs_get.
    rewrite !lookup_insert_ne, !lookup_delete_ne by discriminate. reflexivity.
  - apply mapM_Ok in Hrows. eapply Forall2_impl; [exact Hrows|].
    intros tf row Hrow. simpl in Hrow.
    apply bind_Ok in Hrow as (c & Hc & Hrow). injection Hrow as <-.
    exists c. auto.
Qed.

(** X10: the transposed table is the transpose of the normal one, cell by
    cell styled.  For a builder without section function, the cell of field
    [i] and record [j] of the normal table, wrapped in the style of the field
    (or the [style] option when the field has none), is the cell of the
    transposed table in row [i], at position [j] after the header cell if the
    header is shown. *)
Theorem transposed_cell_is_styled_normal_cell {K : Type}
    (lt ne : K -> K -> bool) (self : @TableBuilder K) items table_kwargs
    show_header show_footer tn tt i j tf row c :
  kwargs_get table_kwargs "show_header" (VBool true) = VBool show_header ->
  kwargs_get table_kwargs "show_footer" (VBool false) = VBool show_footer ->
  section_by self = None ->
  _build_table_normal lt ne self items table_kwargs = Ok tn ->
  _build_table_transposed self items table_kwargs = Ok tt ->
  (_table_fields self).*2 !! i = Some tf ->
  table_rows tn !! j = Some row ->
  row !! i = Some c ->
  exists row',
    table_rows tt !! i = Some row' /\
    row' !! (Nat.b2n show_header + j)%nat
    = Some (TableField._apply_style c
              (py_or (TableField.style tf)
                 (kwargs_get table_kwargs "style" (VStr "")))).
Proof.
  intros Hh Hf Hsec Hn Ht Hi Hj Hc.
  apply normal_build_Ok in Hn
    as (laid_out & columns & rows & Hlaid & Hcols & _ & _ & _ & Hrows).
  rewrite Hsec in Hlaid. subst laid_out.
  apply build_columns_rows in Hcols as (news & Hnews & Hnews' & _);
    [|apply length_replicate].
  pose proof (Forall2_length _ _ _ Hnews) as Hnlen.
  rewrite Hnlen, zip_with_app_replicate_nil in Hnews'. subst news.
  rewrite Hrows in Hj.
  destruct (Forall2_lookup_r _ _ _ _ _ Hnews Hj) as (item & Hitem & Hrow).
  unfold row_of in Hrow. apply mapM_Ok in Hrow.
  pose proof (Forall2_lookup_lr _ _ _ _ _ _ Hrow Hi Hc) as Hcell.
  simpl in Hcell. apply bind_Ok in Hcell as (v & Hv & Hfmt).
  destruct (transposed_build_Ok self items table_kwargs show_header
              show_footer tt Hh Hf Ht) as [Hstyle Hall].
  destruct (Forall2_lookup_l _ _ _ _ _ Hall Hi)
    as (row' & Hrow' & cnt & Hcnt & Hdef).
  exists row'. split; [exact Hrow'|]. rewrite Hdef. clear Hdef.
  apply build_field_content_Ok in Hcnt as (raw & Hraw & _ & _ & Hvals).
  apply mapM_Ok in Hraw, Hvals.
  destruct (Forall2_lookup_l _ _ _ _ _ Hraw Hitem) as (v' & Hv' & Hget).
  rewrite Hv in Hget. injection Hget as <-.
  destruct (Forall2_lookup_l _ _ _ _ _ Hvals Hv') as (c' & Hc' & Hfmt').
  simpl in Hfmt'. rewrite format_with_style, Hstyle, Hfmt in Hfmt'.
  injection Hfmt' as <-.
  destruct show_header; simpl.
  - rewrite lookup_app_l; [exact Hc'|]. eapply lookup_lt_Some, Hc'.
  - rewrite lookup_app_l; [exact Hc'|]. eapply lookup_lt_Some, Hc'.
Qed.

(** The cart with neither header nor footer: the quantity of the second
    record is the cell 1 of the row 1 of the normal table, and, as a [Text],
    the cell 1 of the row 1 of the transposed one. *)
Lemma transposed_cell_is_styled_normal_cell_witness :
  exists tn tt row row',
    _build_table_normal int_lt int_ne cart_builder cart show_neither = Ok tn /\
    _build_table_transposed cart_builder cart show_neither = Ok tt /\
    table_rows tn !! 1%nat = Some row /\
    row !! 1%nat = Some (RValue (VStr "2")) /\
    table_rows tt !! 1%nat = Some row' /\
    row' !! 1%nat = Some (Text "2" (VStr "")).
Proof.
  destruct (_build_table_normal int_lt int_ne cart_builder cart show_neither)
    as [tn|e] eqn:Hn; [|vm_compute in Hn; discriminate Hn].
  destruct (_build_table_transposed cart_builder cart show_neither)
    as [tt|e] eqn:Ht; [|vm_compute in Ht; discriminate Ht].
  assert (Hrows : table_rows tn
                  = [[RValue (VStr "A"); RValue (VStr "1"); RValue (VStr "10")];
                     [RValue (VStr "B"); RValue (VStr "2"); RValue (VStr "20")]]).
  { vm_compute in Hn. injection Hn as <-. reflexivity. }
  assert (Hfield : exists tf, (_table_fields cart_builder).*2 !! 1%nat = Some tf
                              /\ TableField.style tf = VStr "").
  { eexists. split; reflexivity. }
  destruct Hfield as (tf & Htf & Hstyle).
  assert (Hj : table_rows tn !! 1%nat
               = Some [RValue (VStr "B"); RValue (VStr "2"); RValue (VStr "20")]).
  { rewrite Hrows. reflexivity. }
  destruct (transposed_cell_is_styled_normal_cell int_lt int_ne cart_builder
              cart show_neither false false tn tt 1 1 tf
              [RValue (VStr "B"); RValue (VStr "2"); RValue (VStr "20")]
              (RValue (VStr "2")) eq_refl eq_refl eq_refl Hn Ht Htf Hj eq_refl)
    as (row' & Hrow' & Hcell).
  exists tn, tt, [RValue (VStr "B"); RValue (VStr "2"); RValue (VStr "20")],
    row'.
  rewrite Hstyle in Hcell.
  split; [reflexivity|]. split; [reflexivity|]. split; [exact Hj|].
  split; [reflexivity|]. split; [exact Hrow' | exact Hcell].
Defined.

(** X11: a show-header or show-footer option that is neither a [bool] nor
    an [int] makes the transposed build raise the [TypeError] of the addition
    to the number of records, before any field is looked at. *)
Theorem transposed_flag_not_a_number {K : Type} (self : @TableBuilder K)
    values table_kwargs show_header show_footer :
  kwargs_get table_kwargs "show_header" (VBool true) = show_header ->
  kwargs_get table_kwargs "show_footer" (VBool false) = show_footer ->
  is_flag show_header && is_flag show_footer = false ->
  exists msg,
    _build_table_transposed self values table_kwargs
    = Raise (Exc TypeError msg).
Proof.
  intros Hh Hf Hflags. unfold _build_table_transposed.
  assert (Hf' : kwargs_get (delete "show_header" table_kwargs) "show_footer"
                  (VBool false) = show_footer).
  { unfold kwargs_get in *. rewrite lookup_delete_ne by discriminate.
    exact Hf. }
  rewrite Hh, Hf'.
  destruct show_header; simpl in *; eauto;
    destruct show_footer; simpl in *; try discriminate; eauto.
Qed.

(** [show_header=None]: [len(values) + None]. *)
Lemma transposed_flag_not_a_number_witness :
  _build_table_transposed cart_builder cart header_None
  = Raise (Exc TypeError
             "unsupported operand type(s) for +: 'int' and 'NoneType'") /\
  exists msg,
    _build_table_transposed cart_builder cart header_None
    = Raise (Exc TypeError msg).
Proof.
  split; [reflexivity|].
  apply (transposed_flag_not_a_number cart_builder cart header_None VNone
           (VBool false));
    reflexivity.
Defined.

(** ** Sections group the records by key *)

Lemma sorted_keys_transfer {K A B : Type} (lt : K -> K -> bool)
    (l : list (K * A)) (l' : list (K * B)) :
  l.*1 = l'.*1 ->
  StronglySorted (key_le lt) l -> StronglySorted (key_le lt) l'.
Proof.
  intros Hkeys Hsorted. revert l' Hkeys.
  induction Hsorted as [|x l _ IH Hx]; intros [|x' l'] Hkeys;
    try discriminate; constructor; rewrite !fmap_cons in Hkeys;
    injection Hkeys as Hk Hkeys.
  - apply IH, Hkeys.
  - clear IH. revert l' Hkeys.
    induction Hx as [|y l Hy _ IHx]; intros [|y' l'] Hkeys;
      try discriminate; constructor; rewrite !fmap_cons in Hkeys;
      injection Hkeys as Hk' Hkeys.
    + unfold key_le in *. rewrite <- Hk, <- Hk'. exact Hy.
    + apply IHx, Hkeys.
Qed.

Section Grouping.
Context {K : Type} (lt ne : K -> K -> bool).
Hypothesis lt_asym : forall a b, lt a b = true -> lt b a = false.
Hypothesis lt_negtrans :
  forall a b c, lt a b = false -> lt b c = false -> lt a c = false.
Hypothesis ne_tie : forall a b, ne a b = negb (tie lt a b).

Lemma tie_ne_refl a : ne a a = false.
Proof.
  rewrite ne_tie. unfold tie.
  destruct (lt a a) eqn:H; [|reflexivity].
  rewrite (lt_asym _ _ H) in H. discriminate.
Qed.

Lemma tie_ne_sym a b : ne a b = false -> ne b a = false.
Proof. rewrite !ne_tie. unfold tie. rewrite andb_comm. exact id. Qed.

Lemma tie_ne_trans a b c : ne a b = false -> ne b c = false -> ne a c = false.
Proof.
  rewrite !ne_tie, !negb_false_iff. unfold tie.
  rewrite !andb_true_iff, !negb_true_iff. intros [H1 H2] [H3 H4].
  split; eapply lt_negtrans; eassumption.
Qed.

Lemma row_sections_calls_after n p k row (krs : list (K * list renderable)) :
  row_sections n (calls_after ne p ((k, row) :: krs))
  = row_sections (if ne k p then S n else n)
      (sectioned_calls ne ((k, row) :: krs)).
Proof. simpl. destruct (ne k p); reflexivity. Qed.

(** In a list sorted by key, the rows after a row [p] that are in the
    section of [p] are those whose key is equal to the key of [p]. *)
Lemma sections_after_first (krs : list (K * list renderable)) :
  forall n p prow j kj rj idj,
    StronglySorted (key_le lt) ((p, prow) :: krs) ->
    krs !! j = Some (kj, rj) ->
    row_sections n (calls_after ne p krs) !! j = Some idj ->
    (n <= idj)%nat /\ (idj = n <-> ne kj p = false).
Proof.
  induction krs as [|[k1 r1] rest IH]; intros n p prow j kj rj idj Hs Hj Hid;
    [discriminate Hj|].
  rewrite row_sections_calls_after in Hid. simpl in Hid.
  inversion Hs as [|? ? Hs' Hp]; subst.
  inversion Hp as [|? ? Hpk1 Hprest]; subst.
  destruct j as [|j].
  - injection Hj as <- <-. injection Hid as <-.
    destruct (ne k1 p); split; try lia; split; try reflexivity;
      try discriminate; lia.
  - simpl in Hj, Hid.
    destruct (IH _ k1 r1 j kj rj idj Hs' Hj Hid) as [Hle Hiff].
    assert (Hk1j : lt kj k1 = false).
    { inversion Hs' as [|? ? _ Hk1]; subst.
      rewrite Forall_forall in Hk1.
      apply (Hk1 (kj, rj)). eapply list_elem_of_lookup_2, Hj. }
    destruct (ne k1 p) eqn:Hk1p.
    + split; [lia|]. split; [lia|]. intros Hkjp. exfalso.
      assert (Htie : ne k1 p = false); [|congruence].
      rewrite ne_tie, negb_false_iff in Hkjp |- *. unfold tie in *.
      apply andb_true_iff in Hkjp as [_ Hpkj]. apply negb_true_iff in Hpkj.
      apply andb_true_iff. split; apply negb_true_iff.
      * exact Hpk1.
      * eapply lt_negtrans; eassumption.
    + split; [exact Hle|]. rewrite Hiff. split; intros H.
      * eapply tie_ne_trans; eassumption.
      * eapply tie_ne_trans; [exact H | apply tie_ne_sym, Hk1p].
Qed.

Lemma sections_group_sorted (krs : list (K * list renderable)) :
  forall n i j ki ri kj rj si sj,
    StronglySorted (key_le lt) krs ->
    (i <= j)%nat ->
    krs !! i = Some (ki, ri) -> krs !! j = Some (kj, rj) ->
    row_sections n (sectioned_calls ne krs) !! i = Some si ->
    row_sections n (sectioned_calls ne krs) !! j = Some sj ->
    (si = sj <-> ne ki kj = false).
Proof.
  induction krs as [|[k0 r0] krs IH];
    intros n i j ki ri kj rj si sj Hs Hij Hi Hj Hsi Hsj; [discriminate Hi|].
  destruct i as [|i].
  - injection Hi as <- <-. simpl in Hsi. injection Hsi as <-.
    destruct j as [|j].
    + injection Hj as <- <-. simpl in Hsj. injection Hsj as <-.
      split; [intros _; apply tie_ne_refl | reflexivity].
    + simpl in Hj, Hsj.
      destruct (sections_after_first krs n k0 r0 j kj rj sj Hs Hj Hsj)
        as [_ Hiff].
      split; intros H.
      * apply tie_ne_sym, Hiff. congruence.
      * symmetry. apply Hiff, tie_ne_sym, H.
  - destruct j as [|j]; [lia|]. simpl in Hi, Hj, Hsi, Hsj.
    destruct krs as [|[k1 r1] rest]; [discriminate Hi|].
    rewrite row_sections_calls_after in Hsi, Hsj.
    inversion Hs; subst.
    eapply (IH _ i j); try eassumption. lia.
Qed.

(** X12: with a section function whose keys are ordered by a strict weak
    order, and equal exactly when they tie in it, two rows of the table are in
    the same section if and only if the section keys of their records are
    equal: the sections group the records by key. *)
Theorem sections_group_by_key (self : @TableBuilder K) f items table_kwargs
    laid_out t i j xi xj ki kj si sj :
  section_by self = Some f ->
  sorted lt f items = Ok laid_out ->
  _build_table_normal lt ne self items table_kwargs = Ok t ->
  laid_out !! i = Some xi -> f xi = Ok ki ->
  laid_out !! j = Some xj -> f xj = Ok kj ->
  row_sections 0 (Table.calls t) !! i = Some si ->
  row_sections 0 (Table.calls t) !! j = Some sj ->
  (si = sj <-> ne ki kj = false).
Proof.
  intros Hsec Hlaid Hbuild Hxi Hki Hxj Hkj Hsi Hsj.
  unfold _build_table_normal in Hbuild. rewrite Hsec, Hlaid in Hbuild.
  rewrite Ok_bind in Hbuild.
  unfold sorted in Hlaid. apply bind_Ok in Hlaid as (keys & Hkeys & Hlaid).
  injection Hlaid as <-.
  rewrite (sorted_markers lt f items keys Hkeys), !Ok_bind in Hbuild.
  apply bind_Ok in Hbuild as ([columns rows] & Hcols & Hbuild).
  apply build_columns_rows in Hcols as (news & Hnews & -> & _);
    [|apply length_replicate].
  pose proof (Forall2_length _ _ _ Hnews) as Hlen.
  rewrite Hlen, zip_with_app_replicate_nil in Hbuild.
  rewrite !length_fmap in Hlen.
  set (by_key := stable_sort lt (zip keys items)) in *.
  assert (Hcalls : Table.calls t = sectioned_calls ne (zip by_key.*1 news)).
  { apply bind_Ok in Hbuild as (calls & Hcalls & Hbuild).
    injection Hbuild as <-. simpl.
    destruct news as [|row news].
    - injection Hcalls as <-. destruct by_key.*1; reflexivity.
    - destruct by_key as [|[k x] by_key']; [discriminate Hlen|].
      simpl in Hcalls. injection Hcalls as <-. simpl.
      rewrite tie_ne_refl, zip_Some_markers. f_equal.
      apply (add_rows_calls_after ne tie_ne_refl tie_ne_sym tie_ne_trans).
      apply tie_ne_refl. }
  rewrite Hcalls in Hsi, Hsj.
  assert (Hkeys' : forall n x k, by_key.*2 !! n = Some x -> f x = Ok k ->
                     exists row, zip by_key.*1 news !! n = Some (k, row)).
  { intros n x k Hx Hk.
    pose proof (sorted_markers lt f items keys Hkeys) as Hms.
    fold by_key in Hms. apply mapM_Ok in Hms.
    destruct (Forall2_lookup_l _ _ _ _ _ Hms Hx) as (k' & Hk' & Hfx).
    rewrite Hk in Hfx. injection Hfx as <-.
    destruct (lookup_lt_is_Some_2 news n) as [row Hrow].
    { rewrite <- Hlen. rewrite <- (length_fmap snd). eapply lookup_lt_Some, Hx. }
    exists row. apply lookup_zip_with_Some. exists k, row. auto. }
  destruct (Hkeys' _ _ _ Hxi Hki) as [ri Hzi].
  destruct (Hkeys' _ _ _ Hxj Hkj) as [rj Hzj].
  assert (Hsorted : StronglySorted (key_le lt) (zip by_key.*1 news)).
  { apply (sorted_keys_transfer lt by_key).
    - rewrite fst_zip; [reflexivity|]. rewrite length_fmap. lia.
    - apply stable_sort_sorted; assumption. }
  destruct (le_ge_dec i j) as [Hij|Hij].
  - eapply (sections_group_sorted _ 0 i j); eassumption.
  - split; intros H.
    + apply tie_ne_sym. eapply (sections_group_sorted _ 0 j i); eauto.
    + symmetry. eapply (sections_group_sorted _ 0 j i); eauto.
      apply tie_ne_sym, H.
Qed.

Lemma stable_sort_of_sorted {A : Type} (l : list (K * A)) :
  StronglySorted (key_le lt) l -> stable_sort lt l = l.
Proof.
  induction 1 as [|x l _ IH Hx]; [reflexivity|].
  simpl. rewrite IH. destruct Hx as [|y l Hy _]; [reflexivity|].
  simpl. unfold key_le in Hy. rewrite Hy. reflexivity.
Qed.

(** X13: sorting is idempotent: records that [sorted] has put in key order
    are left exactly as they are by sorting them again, so a table built from
    the rows of a sectioned table, in their order, has the same rows. *)
Theorem sorted_twice (f : value -> result K) items laid_out :
  sorted lt f items = Ok laid_out -> sorted lt f laid_out = Ok laid_out.
Proof.
  unfold sorted. intros H. apply bind_Ok in H as (keys & Hkeys & H).
  injection H as <-.
  rewrite (sorted_markers lt f items keys Hkeys), Ok_bind.
  rewrite zip_fst_snd, stable_sort_of_sorted; [reflexivity|].
  apply stable_sort_sorted; assumption.
Qed.
End Grouping.

Lemma int_ne_tie a b : int_ne a b = negb (tie int_lt a b).
Proof.
  unfold int_ne, tie, int_lt.
  destruct (a =? b) eqn:He, (a <? b) eqn:H1, (b <? a) eqn:H2; simpl;
    try reflexivity; lia.
Qed.

(** The four records in the groups 2, 1, 2, 1: b and d make the first
    section, a and c the second. *)
Lemma sections_group_by_key_witness :
  exists t laid_out,
    sorted int_lt group_of grouped_items = Ok laid_out /\
    _build_table_normal int_lt int_ne grouped_builder grouped_items ∅ = Ok t /\
    row_sections 0 (Table.calls t) = [0; 0; 1; 1]%nat /\
    (0 = 1 <-> int_ne 1 2 = false)%nat.
Proof.
  destruct (sorted int_lt group_of grouped_items) as [laid_out|e] eqn:Hlaid;
    [|vm_compute in Hlaid; discriminate Hlaid].
  destruct (_build_table_normal int_lt int_ne grouped_builder grouped_items ∅)
    as [t|e] eqn:Ht; [|vm_compute in Ht; discriminate Ht].
  exists t, laid_out. split; [reflexivity|]. split; [reflexivity|].
  assert (Hsec : row_sections 0 (Table.calls t) = [0; 0; 1; 1]%nat).
  { vm_compute in Ht. injection Ht as <-. reflexivity. }
  split; [exact Hsec|].
  assert (Hl : laid_out = [grouped "b" 1; grouped "d" 1; grouped "a" 2;
                           grouped "c" 2]).
  { vm_compute in Hlaid. injection Hlaid as <-. reflexivity. }
  apply (sections_group_by_key int_lt int_ne int_lt_asym int_lt_negtrans
           int_ne_tie grouped_builder group_of grouped_items ∅ laid_out t
           1 2 (grouped "d" 1) (grouped "a" 2) 1 2 0%nat 1%nat);
    try reflexivity; try assumption;
    try (rewrite Hl; reflexivity); rewrite Hsec; reflexivity.
Defined.

Lemma sorted_twice_witness :
  exists laid_out,
    sorted int_lt group_of grouped_items = Ok laid_out /\
    sorted int_lt group_of laid_out = Ok laid_out.
Proof.
  destruct (sorted int_lt group_of grouped_items) as [laid_out|e] eqn:Hlaid;
    [|vm_compute in Hlaid; discriminate Hlaid].
  exists laid_out. split; [reflexivity|].
  apply (sorted_twice int_lt int_lt_asym int_lt_negtrans group_of
           grouped_items laid_out Hlaid).
Defined.

(** ** The entry points: options and orientation *)

Lemma update_kwargs_lookup table_kwargs kwargs opt :
  update_kwargs table_kwargs kwargs !! opt
  = match kwargs !! opt with
    | Some v => Some v
    | None => table_kwargs !! opt
    end.
Proof.
  unfold update_kwargs.
  apply (map_fold_weak_ind
           (fun r (m : TableOptions) =>
              r !! opt = match m !! opt with
                         | Some v => Some v
                         | None => table_kwargs !! opt
                         end)).
  - rewrite lookup_empty. reflexivity.
  - intros i x m r _ IH. destruct (decide (i = opt)) as [->|Hne].
    + rewrite !lookup_insert_eq. reflexivity.
    + rewrite !lookup_insert_ne by exact Hne. exact IH.
Qed.

Lemma default_table_kwargs_lookup {K : Type} fields transposed
    (section_by : option (value -> result K)) kwargs opt :
  default_table_kwargs (TableBuilder__init__ fields transposed section_by kwargs)
    !! opt
  = match kwargs !! opt with
    | Some v => Some v
    | None => builtin_option opt
    end.
Proof.
  simpl. rewrite update_kwargs_lookup.
  destruct (kwargs !! opt) as [v|] eqn:Hopt; [reflexivity|].
  unfold builtin_option, kwargs_get.
  repeat case_decide; subst; rewrite ?Hopt; simplify_map_eq; reflexivity.
Qed.

(** The options a transposed table is created with: those it was handed,
    with [show_header] and [show_footer] set to [False]. *)
Lemma transposed_build_kwargs {K : Type} (self : @TableBuilder K) values
    table_kwargs t :
  _build_table_transposed self values table_kwargs = Ok t ->
  Table.kwargs t
  = <["show_footer" := VBool false]>
      (<["show_header" := VBool false]>
         (delete "show_footer" (delete "show_header" table_kwargs))).
Proof.
  unfold _build_table_transposed. intros H.
  apply bind_Ok in H as (n1 & _ & H).
  apply bind_Ok in H as (n2 & _ & H).
  apply bind_Ok in H as (rows & _ & H).
  injection H as <-. reflexivity.
Qed.

(** X14: the options a table is created with by a call of a builder are,
    option by option, the one given to the call, else the one given to the
    constructor of the builder, else the built-in default ([show_header] true,
    [show_footer] false, [style] ["none"], [header_style] ["table.header"],
    [footer_style] ["table.footer"]), and none otherwise; except that a
    transposed call creates the table with [show_header] and [show_footer]
    both [False], whatever was given for them. *)
Theorem call_options_take_precedence {K : Type} (lt ne : K -> K -> bool)
    fields self_transposed (section_by : option (value -> result K))
    (constructor_kwargs call_kwargs : TableOptions) data transposed t :
  TableBuilder__call__ lt ne
    (TableBuilder__init__ fields self_transposed section_by constructor_kwargs)
    data transposed call_kwargs = Ok t ->
  forall opt,
    Table.kwargs t !! opt
    = if transposed && (bool_decide (opt = "show_header")
                        || bool_decide (opt = "show_footer"))
      then Some (VBool false)
      else
        match call_kwargs !! opt with
        | Some v => Some v
        | None =>
            match constructor_kwargs !! opt with
            | Some v => Some v
            | None => builtin_option opt
            end
        end.
Proof.
  unfold TableBuilder__call__, _build_table. intros H opt.
  destruct transposed; cbn [andb].
  - apply transposed_build_kwargs in H. rewrite H.
    destruct (decide (opt = "show_footer")) as [->|Hf].
    { rewrite lookup_insert_eq. reflexivity. }
    rewrite lookup_insert_ne by congruence.
    rewrite (bool_decide_eq_false_2 _ Hf), orb_false_r.
    destruct (decide (opt = "show_header")) as [->|Hh].
    { rewrite lookup_insert_eq. reflexivity. }
    rewrite lookup_insert_ne by congruence.
    rewrite (bool_decide_eq_false_2 _ Hh).
    rewrite !lookup_delete_ne by congruence.
    rewrite update_kwargs_lookup, default_table_kwargs_lookup. reflexivity.
  - apply normal_build_Ok in H as (_ & _ & _ & _ & _ & _ & _ & -> & _).
    rewrite update_kwargs_lookup, default_table_kwargs_lookup. reflexivity.
Qed.

(** A builder made with [style="bold", show_header=False], called with
    [style="dim", title="Cart"]; and a builder made with [style="dim",
    title="Cart"], called transposed with [show_header=True,
    show_footer=True]. *)
Lemma call_options_take_precedence_witness :
  exists t tt,
    TableBuilder__call__ int_lt int_ne
      (TableBuilder__init__ (_table_fields cart_builder) false None
         bold_no_header)
      cart false dim_titled = Ok t /\
    Table.kwargs t !! "style" = Some (VStr "dim") /\
    Table.kwargs t !! "show_header" = Some (VBool false) /\
    Table.kwargs t !! "show_footer" = Some (VBool false) /\
    Table.kwargs t !! "title" = Some (VStr "Cart") /\
    Table.kwargs t !! "caption" = None /\
    TableBuilder__call__ int_lt int_ne
      (TableBuilder__init__ (_table_fields cart_builder) false None
         dim_titled)
      cart true show_both = Ok tt /\
    Table.kwargs tt !! "show_header" = Some (VBool false) /\
    Table.kwargs tt !! "show_footer" = Some (VBool false) /\
    Table.kwargs tt !! "style" = Some (VStr "dim") /\
    Table.kwargs tt !! "header_style" = Some (VStr "table.header").
Proof.
  destruct (TableBuilder__call__ int_lt int_ne
              (TableBuilder__init__ (_table_fields cart_builder) false None
                 bold_no_header) cart false dim_titled) as [t|e] eqn:Ht;
    [|vm_compute in Ht; discriminate Ht].
  destruct (TableBuilder__call__ int_lt int_ne
              (TableBuilder__init__ (_table_fields cart_builder) false None
                 dim_titled) cart true show_both) as [tt|e] eqn:Htt;
    [|vm_compute in Htt; discriminate Htt].
  pose proof (call_options_take_precedence int_lt int_ne _ _ _ _ _ _ _ _ Ht)
    as Hopt.
  pose proof (call_options_take_precedence int_lt int_ne _ _ _ _ _ _ _ _ Htt)
    as Hopt'.
  exists t, tt. split; [reflexivity|].
  rewrite !Hopt, !Hopt'. repeat split; reflexivity.
Defined.

(** X15: [TableBuilder.build] always builds in normal orientation: the
    [transposed] argument is stored in the builder, which is then called with
    the [False] of the signature of [__call__]; the options of the table are
    those of the constructor. *)
Theorem build_is_never_transposed {K : Type} (lt ne : K -> K -> bool)
    fields data transposed (section_by : option (value -> result K)) kwargs :
  build lt ne fields data transposed section_by kwargs
  = _build_table_normal lt ne
      (TableBuilder__init__ fields false section_by kwargs) data
      (default_table_kwargs
         (TableBuilder__init__ fields false section_by kwargs)).
Proof.
  unfold build, TableBuilder__call__, _build_table.
  unfold update_kwargs at 1. rewrite map_fold_empty. reflexivity.
Qed.

(** ** Styles by value: repeated values, new values, the rainbow *)

Section StyleRunsProperties.
Context {V S G : Type} (eqb : V -> V -> bool) (next_style : G -> S * G).
Hypothesis eqb_refl : forall a, eqb a a = true.
Hypothesis eqb_sym : forall a b, eqb a b = true -> eqb b a = true.
Hypothesis eqb_trans :
  forall a b c, eqb a b = true -> eqb b c = true -> eqb a c = true.

(** X16: applying a closure to a value equal to one it has a style for
    changes nothing: the style is returned, the generator is not called and
    no dictionary is touched. *)
Theorem seen_value_changes_nothing f value value' (w : @world V S G) style :
  remembers eqb w f value style ->
  eqb value value' = true ->
  format_value eqb next_style f value' w = Some (Ok (value', style), w).
Proof.
  intros (seen_values & Hf & Hget) Heq.
  rewrite (format_value_cases eqb next_style eqb_refl _ _ _ _ Hf).
  rewrite <- (seen_get_equal eqb eqb_sym eqb_trans _ _ _ Heq), Hget.
  rewrite (list_insert_id _ _ _ Hf). destruct w. reflexivity.
Qed.

(** X17: applied in turn to values that are new to it and all different,
    a closure gives them the next styles of the generator, one each, in order,
    and leaves the generator after the last of them. *)
Theorem new_values_take_next_styles f values :
  forall (w : @world V S G) seen_values,
    closures w !! f = Some seen_values ->
    Forall (fun v => seen_get eqb seen_values v = None) values ->
    all_different eqb values = true ->
    exists w',
      format_values eqb next_style f values w
      = Some (zip_with (fun v style => Ok (v, style)) values
                (next_styles next_style (length values) (generator w)).1,
              w') /\
      generator w'
      = (next_styles next_style (length values) (generator w)).2.
Proof.
  induction values as [|value rest IH]; intros w seen_values Hf Hnew Hdiff.
  - exists w. split; reflexivity.
  - inversion Hnew as [|? ? Hvalue Hrest]; subst.
    simpl in Hdiff. apply andb_true_iff in Hdiff as [Hothers Hdiff].
    cbn [format_values].
    rewrite (format_value_cases eqb next_style eqb_refl _ _ _ _ Hf), Hvalue.
    cbv zeta. cbn [mbind option_bind].
    set (style := (next_style (generator w)).1).
    set (w1 := mkWorld (next_style (generator w)).2
                 (<[f:=seen_set eqb seen_values value style]> (closures w))).
    destruct (IH w1 (seen_set eqb seen_values value style))
      as (w' & Hrun & Hgen).
    + apply list_lookup_insert_eq. eapply lookup_lt_Some, Hf.
    + rewrite forallb_forall in Hothers. rewrite Forall_forall in Hrest |- *.
      intros v Hv.
      rewrite (seen_get_set_other eqb eqb_sym eqb_trans); [apply Hrest, Hv|].
      apply negb_true_iff, Hothers. apply list_elem_of_In, Hv.
    + exact Hdiff.
    + exists w'. rewrite Hrun. cbn [mbind option_bind]. simpl length.
      cbn [next_styles]. subst style. simpl in Hgen |- *.
      destruct (next_style (generator w)) as [s g1]. simpl in *.
      destruct (next_styles next_style (length rest) g1) as [styles g'].
      simpl in *. split; [reflexivity | exact Hgen].
Qed.
End StyleRunsProperties.

(** ["apple"] a second time, after ["apple"] and ["banana"]: the world is
    the same before and after. *)
Lemma seen_value_changes_nothing_witness :
  exists w1 w2,
    format_value String.eqb rainbow_cycle 0 "apple" one_closure
    = Some (Ok ("apple", "red"), w1) /\
    format_value String.eqb rainbow_cycle 0 "banana" w1
    = Some (Ok ("banana", "orange1"), w2) /\
    format_value String.eqb rainbow_cycle 0 "apple" w2
    = Some (Ok ("apple", "red"), w2).
Proof.
  eexists. eexists. split; [reflexivity|]. split; [reflexivity|].
  apply (seen_value_changes_nothing String.eqb rainbow_cycle str_eqb_refl
           str_eqb_sym str_eqb_trans 0 "apple" "apple").
  - eexists. split; reflexivity.
  - reflexivity.
Defined.

(** Nine different values on the rainbow: the eight colors in order, and
    the first one again for the ninth. *)
Lemma new_values_take_next_styles_witness :
  exists w',
    format_values String.eqb rainbow_cycle 0
      ["a"; "b"; "c"; "d"; "e"; "f"; "g"; "h"; "i"] one_closure
    = Some ([Ok ("a", "red"); Ok ("b", "orange1"); Ok ("c", "yellow2");
             Ok ("d", "green3"); Ok ("e", "cyan1");
             Ok ("f", "deep_sky_blue1"); Ok ("g", "dark_blue");
             Ok ("h", "dark_violet"); Ok ("i", "red")], w') /\
    generator w' = 1%nat.
Proof.
  destruct (new_values_take_next_styles String.eqb rainbow_cycle str_eqb_refl
              str_eqb_sym str_eqb_trans 0
              ["a"; "b"; "c"; "d"; "e"; "f"; "g"; "h"; "i"] one_closure [])
    as (w' & Hrun & Hgen).
  - reflexivity.
  - repeat constructor.
  - reflexivity.
  - exists w'. split; [exact Hrun | exact Hgen].
Defined.

(** X18: [rainbow_cycle] keeps its index within [RAINBOW_COLORS]: from an
    index of the list it returns the color at that index, moves to the next
    index, wrapping around after the last, never returns the same color twice
    in a row, and is back at the same index after eight calls. *)
Theorem rainbow_cycle_cycles (idx : nat) :
  (idx < length RAINBOW_COLORS)%nat ->
  RAINBOW_COLORS !! idx = Some (rainbow_cycle idx).1 /\
  ((rainbow_cycle idx).2 < length RAINBOW_COLORS)%nat /\
  (rainbow_cycle idx).2 = (if decide (idx = 7%nat) then 0 else idx + 1)%nat /\
  (rainbow_cycle (rainbow_cycle idx).2).1 <> (rainbow_cycle idx).1 /\
  Nat.iter 8 (fun i => (rainbow_cycle i).2) idx = idx.
Proof.
  intros Hidx. simpl in Hidx.
  do 8 (destruct idx as [|idx];
        [repeat split; try reflexivity; try (simpl; lia); discriminate|]).
  lia.
Qed.

Lemma rainbow_cycle_cycles_witness :
  rainbow_cycle 7 = ("dark_violet", 0%nat) /\
  (rainbow_cycle (rainbow_cycle 7).2).1 <> (rainbow_cycle 7).1.
Proof.
  split; [reflexivity|].
  apply (rainbow_cycle_cycles 7). simpl. lia.
Defined.
